(** * A shallow embedding of tkw1536/procutil

    The development follows the Go sources:
    - [closer.go]                     : [DualCloserWrapper]
    - [term/term.go], unnamed part 5  : the terminal handles
    - unnamed part 8                  : the [Command] lifecycle controller
    - the [StreamingProcess] engine   : its terminal bookkeeping and streamer calls

    Go's [error] is modelled as [option error] ([None] is [nil]). Goroutines and
    locks are modelled by the order in which their atomic steps run: a [sync.Once],
    an atomic add and a critical section under [e.m] each run as one step. *)

From Stdlib Require Import List Bool Arith Lia ZArith.
From Stdlib Require Strings.String.
Import ListNotations.
Open Scope nat_scope.

(** ** Errors *)

Inductive error :=
  | errCommandAlreadyInitialized      (* "Command: Already initialized" *)
  | errCommandNotInitialized          (* "Command: Not initialized" *)
  | errCommandIsATerminal             (* "Command: Is a Terminal" *)
  | errCommandNotATerminal            (* "Command: Not a Terminal" *)
  | errCommandNotRunning              (* "Command: Process is not running" *)
  | errCommandRunning                 (* "Command: Process is running" *)
  | ErrNotATerminal                   (* "Terminal: File() is not a terminal" *)
  | ErrExternal (code : nat)          (* an error of a collaborator (os, moby, backend) *)
  | ErrContext.                       (* ctx.Err() *)

Definition error_eq_dec (x y : error) : {x = y} + {x <> y}.
Proof. decide equality; apply Nat.eq_dec. Defined.

(** ** DualCloserWrapper (closer.go) *)

Module DualCloser.

Inductive op := OpClose | OpCloseWrite.

(** [count] is a [uint32]; [atomic.AddUint32] wraps modulo 2^32. *)
Definition addUint32 (x d : Z) : Z := ((x + d) mod 2 ^ 32)%Z.

Record DualCloserWrapper := mkDualCloserWrapper {
  count : Z;              (* count uint32 *)
  close : bool;           (* has [close] (a sync.Once) fired *)
  closeWrite : bool;      (* has [closeWrite] (a sync.Once) fired *)
}.

Definition zero : DualCloserWrapper := mkDualCloserWrapper 0 false false.

Section Wrapper.

(** The result of the wrapped [Closer.Close()]. *)
Variable closer_close : option error.

(** One call: the returned error, whether [w.Closer.Close()] was invoked, and
    the new wrapper. *)
Definition Close (w : DualCloserWrapper) : option error * bool * DualCloserWrapper :=
  if close w then (None, false, w)
  else
    let c := addUint32 (count w) 1 in
    let w' := mkDualCloserWrapper c true (closeWrite w) in
    if Z.eqb c 2 then (closer_close, true, w') else (None, false, w').

Definition CloseWrite (w : DualCloserWrapper) : option error * bool * DualCloserWrapper :=
  if closeWrite w then (None, false, w)
  else
    let c := addUint32 (count w) 1 in
    let w' := mkDualCloserWrapper c (close w) true in
    if Z.eqb c 2 then (closer_close, true, w') else (None, false, w').

Definition call (o : op) : DualCloserWrapper -> option error * bool * DualCloserWrapper :=
  match o with OpClose => Close | OpCloseWrite => CloseWrite end.

(** Run a sequence of calls; for every call, whether it invoked [Closer.Close()]. *)
Fixpoint run (ops : list op) (w : DualCloserWrapper) : list bool * DualCloserWrapper :=
  match ops with
  | [] => ([], w)
  | o :: ops' =>
      let '(_, invoked, w1) := call o w in
      let '(tr, w2) := run ops' w1 in
      (invoked :: tr, w2)
  end.

Definition invoked_trace (ops : list op) : list bool := fst (run ops zero).

End Wrapper.

(** Whether a sequence contains both a [Close] and a [CloseWrite]. *)
Definition op_eqb (a b : op) : bool :=
  match a, b with
  | OpClose, OpClose | OpCloseWrite, OpCloseWrite => true
  | _, _ => false
  end.

Definition has_both (ops : list op) : bool :=
  existsb (op_eqb OpClose) ops && existsb (op_eqb OpCloseWrite) ops.

(** The calls seen so far, starting from flags [cd] (a Close happened) and [cwd]
    (a CloseWrite happened), contain both operations. *)
Definition both_from (cd cwd : bool) (ops : list op) : bool :=
  (cd || existsb (op_eqb OpClose) ops) && (cwd || existsb (op_eqb OpCloseWrite) ops).

(** For every call: both operations have occurred once it is made, and had not
    occurred before it. *)
Fixpoint first_both_trace (cd cwd : bool) (ops : list op) : list bool :=
  match ops with
  | [] => []
  | o :: ops' =>
      let cd' := cd || op_eqb OpClose o in
      let cwd' := cwd || op_eqb OpCloseWrite o in
      (cd' && cwd' && negb (cd && cwd)) :: first_both_trace cd' cwd' ops'
  end.

End DualCloser.

(** ** Command (unnamed part 8): the lifecycle controller *)

Module Command.

Inductive commandState :=
  | commandStateDefault
  | commandStateInit
  | commandStateStart
  | commandStateWait
  | commandStateDone.

Definition state_eqb (a b : commandState) : bool :=
  match a, b with
  | commandStateDefault, commandStateDefault
  | commandStateInit, commandStateInit
  | commandStateStart, commandStateStart
  | commandStateWait, commandStateWait
  | commandStateDone, commandStateDone => true
  | _, _ => false
  end.

(** The fields of [Command] protected by [e.m]; [waitChanClosed] says whether
    [e.waitChan] has been closed, [cleanupOnce] whether [e.cleanupOnce] fired. *)
Record Command := mkCommand {
  state : commandState;
  isPty : bool;
  waitChanClosed : bool;
  waitExitCode : Z;
  waitErr : option error;
  cleanupOnce : bool;
  cleanupErr : option error;
}.

Definition zeroCommand : Command :=
  mkCommand commandStateDefault false false 0%Z None false None.

(** Calls made to [e.Process]. *)
Inductive pcall :=
  | PInit (isTty : bool)
  | PStdin | PStdout | PStderr
  | PStart (isPty : bool)
  | PStop | PWait | PCleanup.

Definition pcall_eq_dec (x y : pcall) : {x = y} + {x <> y}.
Proof. decide equality; apply bool_dec. Defined.

(** The whole system: the command, the calls it made to its process, the goroutine
    [go e.waiter()] (spawned and not yet run), the callers of [Wait] blocked on
    [<-e.waitChan], and the goroutines [go e.Cleanup()] not yet run. *)
Record world := mkWorld {
  cmd : Command;
  calls : list pcall;
  waiterRunning : bool;
  blockedWaits : nat;
  cleanupsSpawned : nat;
}.

Definition set_cmd (w : world) (e : Command) : world :=
  mkWorld e (calls w) (waiterRunning w) (blockedWaits w) (cleanupsSpawned w).

Definition log_call (w : world) (p : pcall) : world :=
  mkWorld (cmd w) (calls w ++ [p]) (waiterRunning w) (blockedWaits w) (cleanupsSpawned w).

Definition set_state (e : Command) (s : commandState) : Command :=
  mkCommand s (isPty e) (waitChanClosed e) (waitExitCode e) (waitErr e)
    (cleanupOnce e) (cleanupErr e).

(** What callers observe. *)
Inductive output :=
  | OutInit (r : option error)
  | OutStart (r : option error)
  | OutStartPty (r : option error)
  | OutWait (code : Z) (r : option error)
  | OutStop (r : option error)
  | OutCleanup (r : option error).

(** The process [e.Process] (the [Process] interface): the result of each of its
    methods. [Wait] and [Cleanup] may answer differently on each call: they are
    indexed by the number of earlier calls of the same method. *)
Record Process := mkProcess {
  proc_init : option error;
  proc_stdin : option error;
  proc_stdout : option error;
  proc_stderr : option error;
  proc_start : option error;
  proc_stop : option error;
  proc_wait : nat -> Z * option error;
  proc_cleanup : nat -> option error;
}.

Section Controller.

Variable P : Process.

Definition Init (isTty : bool) (w : world) : option error * world :=
  let e := cmd w in
  if negb (state_eqb (state e) commandStateDefault) then (Some errCommandAlreadyInitialized, w)
  else
    let w := log_call w (PInit isTty) in
    match proc_init P with
    | Some err => (Some err, w)
    | None =>
        (None, set_cmd w (mkCommand commandStateInit isTty (waitChanClosed e)
                            (waitExitCode e) (waitErr e) (cleanupOnce e) (cleanupErr e)))
    end.

(** [Start]; the three [io.Copy] goroutines only move bytes and are not modelled. *)
Definition Start (w : world) : option error * world :=
  let e := cmd w in
  if negb (state_eqb (state e) commandStateInit) then (Some errCommandIsATerminal, w)
  else if isPty e then (Some errCommandIsATerminal, w)
  else
    let w := set_cmd w (set_state e commandStateStart) in
    let w := log_call w PStdin in
    match proc_stdin P with
    | Some err => (Some err, w)
    | None =>
        let w := log_call w PStdout in
        match proc_stdout P with
        | Some err => (Some err, w)
        | None =>
            let w := log_call w PStderr in
            match proc_stderr P with
            | Some err => (Some err, w)
            | None => let w := log_call w (PStart false) in (proc_start P, w)
            end
        end
    end.

Definition StartPty (w : world) : option error * world :=
  let e := cmd w in
  if negb (state_eqb (state e) commandStateInit) then (Some errCommandNotInitialized, w)
  else if negb (isPty e) then (Some errCommandNotATerminal, w)
  else
    let w := set_cmd w (set_state e commandStateStart) in
    let w := log_call w (PStart true) in
    match proc_start P with
    | Some err => (Some err, w)
    | None => (None, w)
    end.

(** [e.wait()], under [e.m]: arms the waiter once. *)
Definition wait (w : world) : option error * world :=
  let e := cmd w in
  if state_eqb (state e) commandStateWait || state_eqb (state e) commandStateDone then (None, w)
  else if negb (state_eqb (state e) commandStateStart) then (Some errCommandNotRunning, w)
  else
    let e' := mkCommand commandStateWait (isPty e) false (waitExitCode e) (waitErr e)
                (cleanupOnce e) (cleanupErr e) in
    (None, mkWorld e' (calls w) true (blockedWaits w) (cleanupsSpawned w)).

(** A caller enters [Wait]: it returns at once, or blocks on [<-e.waitChan]. *)
Definition Wait (w : world) : list output * world :=
  match wait w with
  | (Some err, w') => ([OutWait 0%Z (Some err)], w')
  | (None, w') =>
      if waitChanClosed (cmd w') then ([OutWait (waitExitCode (cmd w')) (waitErr (cmd w'))], w')
      else ([], mkWorld (cmd w') (calls w') (waiterRunning w') (S (blockedWaits w'))
                  (cleanupsSpawned w'))
  end.

(** [e.waiter()]: waits for the process, stores the result, spawns
    [go e.Cleanup()] and closes [e.waitChan], which releases the blocked callers;
    each of them then returns [e.waitExitCode, e.waitErr]. *)
Definition waiter (w : world) : list output * world :=
  let '(code, err) := proc_wait P (count_occ pcall_eq_dec (calls w) PWait) in
  let w := log_call w PWait in
  let e := cmd w in
  let e' := mkCommand commandStateDone (isPty e) true code err (cleanupOnce e) (cleanupErr e) in
  (repeat (OutWait (waitExitCode e') (waitErr e')) (blockedWaits w),
   mkWorld e' (calls w) false 0 (S (cleanupsSpawned w))).

Definition Stop (w : world) : option error * world :=
  let s := state (cmd w) in
  if negb (state_eqb s commandStateStart || state_eqb s commandStateWait)
  then (Some errCommandNotRunning, w)
  else if state_eqb s commandStateDone then (None, w)
  else let w := log_call w PStop in (proc_stop P, w).

Definition cleanup (w : world) : option error :=
  if negb (state_eqb (state (cmd w)) commandStateDone) then Some errCommandRunning else None.

Definition Cleanup (w : world) : option error * world :=
  match cleanup w with
  | Some err => (Some err, w)
  | None =>
      let e := cmd w in
      if cleanupOnce e then (cleanupErr e, w)
      else
        let r := proc_cleanup P (count_occ pcall_eq_dec (calls w) PCleanup) in
        let w := log_call w PCleanup in
        (r, set_cmd w (mkCommand (state e) (isPty e) (waitChanClosed e) (waitExitCode e)
                         (waitErr e) true r))
  end.

(** One atomic step of some goroutine. *)
Inductive event :=
  | EvInit (isTty : bool)
  | EvStart
  | EvStartPty
  | EvWait            (* a new caller of [Wait] *)
  | EvWaiter          (* the goroutine [e.waiter()] runs *)
  | EvStop
  | EvCleanup         (* a caller of [Cleanup] *)
  | EvSpawnedCleanup. (* a goroutine [go e.Cleanup()] runs; its result is dropped *)

Definition event_eq_dec (x y : event) : {x = y} + {x <> y}.
Proof. decide equality; apply bool_dec. Defined.

Definition step (ev : event) (w : world) : list output * world :=
  match ev with
  | EvInit b => let '(r, w') := Init b w in ([OutInit r], w')
  | EvStart => let '(r, w') := Start w in ([OutStart r], w')
  | EvStartPty => let '(r, w') := StartPty w in ([OutStartPty r], w')
  | EvWait => Wait w
  | EvWaiter => if waiterRunning w then waiter w else ([], w)
  | EvStop => let '(r, w') := Stop w in ([OutStop r], w')
  | EvCleanup => let '(r, w') := Cleanup w in ([OutCleanup r], w')
  | EvSpawnedCleanup =>
      match cleanupsSpawned w with
      | 0 => ([], w)
      | S n =>
          let '(_, w') := Cleanup (mkWorld (cmd w) (calls w) (waiterRunning w)
                                     (blockedWaits w) n) in ([], w')
      end
  end.

Fixpoint run (evs : list event) (w : world) : list output * world :=
  match evs with
  | [] => ([], w)
  | ev :: evs' =>
      let '(o1, w1) := step ev w in
      let '(o2, w2) := run evs' w1 in
      (o1 ++ o2, w2)
  end.

End Controller.

Definition fresh : world := mkWorld zeroCommand [] false 0 0.

End Command.

(** ** Terminal handles (unnamed part 5 and term/term.go) *)

Module Term.

Definition FileDescriptor := nat.

(** [WindowSize]: [Height, Width lowlevel.Size], a [uint16] each. *)
Record WindowSize := mkWindowSize { Height : N; Width : N }.

(** An open file as the OS sees it: its descriptor and whether that descriptor
    is a terminal (what [mobyterm.GetFdInfo] probes). [os.Pipe] makes files that
    are not terminals; [lowlevel.OpenPty] makes two files that are. *)
Record File := mkFile { file_fd : FileDescriptor; file_is_tty : bool }.

Definition GetFdInfo (f : File) : FileDescriptor * bool := (file_fd f, file_is_tty f).

(** [lowlevel.TerminalState]: the mode saved by a raw-mode call, for the later
    [ResetTerminal]. [ts_id] tells the saved states apart. *)
Inductive rawKind := RawInput | RawOutput.

Record TerminalState := mkTerminalState {
  ts_fd : FileDescriptor; ts_kind : rawKind; ts_id : nat }.

(** The low-level calls made (package [lowlevel], i.e. moby/term), with their
    results, in order. *)
Inductive llevent :=
  | LSetRawTerminal (fd : FileDescriptor) (st : TerminalState) (r : option error)
  | LSetRawTerminalOutput (fd : FileDescriptor) (st : option TerminalState) (r : option error)
  | LResetTerminal (fd : FileDescriptor) (st : TerminalState) (r : option error)
  | LSetWinsize (fd : FileDescriptor) (size : WindowSize) (r : option error)
  | LClose (f : File) (r : option error).

(** The answers of the operating system to those calls. [ll_outputSaves] tells
    which version of moby's [SetRawTerminalOutput] runs: the Windows one saves
    the console mode and answers it (or the error of saving it, from
    [ll_setRawOutput]); the Unix one does nothing and answers [nil, nil]. *)
Record LowLevel := mkLowLevel {
  ll_setRaw : FileDescriptor -> option error;
  ll_outputSaves : bool;
  ll_setRawOutput : FileDescriptor -> option error;
  ll_reset : FileDescriptor -> option error;
  ll_getWinsize : FileDescriptor -> option error * WindowSize;
  ll_setWinsize : FileDescriptor -> WindowSize -> option error;
  ll_close : File -> option error;
}.

(** The [Terminal] struct; a [*Terminal] is an [option Terminal], [None] being nil. *)
Record Terminal := mkTerminal {
  file : option File;
  fd : FileDescriptor;
  isTerminal : bool;
  inState : option TerminalState;
  outState : option TerminalState;
}.

Definition set_inState (t : Terminal) (s : option TerminalState) : Terminal :=
  mkTerminal (file t) (fd t) (isTerminal t) s (outState t).
Definition set_outState (t : Terminal) (s : option TerminalState) : Terminal :=
  mkTerminal (file t) (fd t) (isTerminal t) (inState t) s.

(** [NewTerminal] (part 5): nil for a nil file. *)
Definition NewTerminal (f : option File) : option Terminal :=
  match f with
  | None => None
  | Some f => let '(d, isT) := GetFdInfo f in Some (mkTerminal (Some f) d isT None None)
  end.

Section Methods.
Variable L : LowLevel.

Definition log := list llevent.

(** [lowlevel.SetRawTerminal]: the previous state on success, nil and the error
    otherwise. *)
Definition SetRawTerminal (d : FileDescriptor) (lg : log)
  : option TerminalState * option error * log :=
  let st := mkTerminalState d RawInput (length lg) in
  match ll_setRaw L d with
  | None => (Some st, None, lg ++ [LSetRawTerminal d st None])
  | Some e => (None, Some e, lg ++ [LSetRawTerminal d st (Some e)])
  end.

(** [lowlevel.SetRawTerminalOutput]: the state is kept only when moby answers a
    non-nil one; the event records the state answered. *)
Definition SetRawTerminalOutput (d : FileDescriptor) (lg : log)
  : option TerminalState * option error * log :=
  if ll_outputSaves L then
    let st := mkTerminalState d RawOutput (length lg) in
    match ll_setRawOutput L d with
    | None => (Some st, None, lg ++ [LSetRawTerminalOutput d (Some st) None])
    | Some e => (None, Some e, lg ++ [LSetRawTerminalOutput d None (Some e)])
    end
  else (None, None, lg ++ [LSetRawTerminalOutput d None None]).

Definition ResetTerminal (d : FileDescriptor) (st : TerminalState) (lg : log)
  : option error * log :=
  let r := ll_reset L d in (r, lg ++ [LResetTerminal d st r]).

Definition SetWinsize (d : FileDescriptor) (size : WindowSize) (lg : log) : option error * log :=
  let r := ll_setWinsize L d size in (r, lg ++ [LSetWinsize d size r]).

(** The methods of [*Terminal]; each returns its result, the terminal and the log. *)

Definition Close (t : option Terminal) (lg : log) : option error * log :=
  match t with
  | None => (None, lg)
  | Some t => match file t with
              | None => (None, lg)
              | Some f => let r := ll_close L f in (r, lg ++ [LClose f r])
              end
  end.

Definition IsTerminal (t : option Terminal) : bool :=
  match t with None => false | Some t => isTerminal t end.

Definition TFile (t : option Terminal) : option File :=
  match t with None => None | Some t => file t end.

Definition SetRawInput (t : option Terminal) (lg : log) : option error * option Terminal * log :=
  match t with
  | None => (None, t, lg)
  | Some t0 =>
      if negb (isTerminal t0) then (None, t, lg)
      else match inState t0 with
           | Some _ => (None, t, lg)
           | None => let '(st, err, lg') := SetRawTerminal (fd t0) lg in
                     (err, Some (set_inState t0 st), lg')
           end
  end.

(** [RestoreInput]: the deferred [t.inState = nil] runs whatever [ResetTerminal]
    answers. *)
Definition RestoreInput (t : option Terminal) (lg : log) : option error * option Terminal * log :=
  match t with
  | None => (None, t, lg)
  | Some t0 =>
      match inState t0 with
      | None => (None, t, lg)
      | Some st => let '(r, lg') := ResetTerminal (fd t0) st lg in
                   (r, Some (set_inState t0 None), lg')
      end
  end.

Definition SetRawOutput (t : option Terminal) (lg : log) : option error * option Terminal * log :=
  match t with
  | None => (None, t, lg)
  | Some t0 =>
      if negb (isTerminal t0) then (None, t, lg)
      else match outState t0 with
           | Some _ => (None, t, lg)
           | None => let '(st, err, lg') := SetRawTerminalOutput (fd t0) lg in
                     (err, Some (set_outState t0 st), lg')
           end
  end.

Definition RestoreOutput (t : option Terminal) (lg : log) : option error * option Terminal * log :=
  match t with
  | None => (None, t, lg)
  | Some t0 =>
      match outState t0 with
      | None => (None, t, lg)
      | Some st => let '(r, lg') := ResetTerminal (fd t0) st lg in
                   (r, Some (set_outState t0 None), lg')
      end
  end.

Definition GetSize (t : option Terminal) : option WindowSize * option error :=
  if negb (IsTerminal t) then (None, Some ErrNotATerminal)
  else match t with
       | None => (None, Some ErrNotATerminal)
       | Some t0 => match ll_getWinsize L (fd t0) with
                    | (Some e, _) => (None, Some e)
                    | (None, size) => (Some size, None)
                    end
       end.

Definition ResizeTo (t : option Terminal) (size : WindowSize) (lg : log) : option error * log :=
  if negb (IsTerminal t) then (Some ErrNotATerminal, lg)
  else match t with
       | None => (Some ErrNotATerminal, lg)
       | Some t0 => SetWinsize (fd t0) size lg
       end.

End Methods.

(** term/term.go: the interface version. [NewTerminal] wraps a nil
    [io.ReadWriteCloser] in [nilTerminal{}]; [fileTerminal]'s methods have the
    bodies of part 5's methods without the nil-receiver test, so they are the
    methods above at a non-nil pointer. *)
Inductive ITerminal :=
  | nilTerminal
  | fileTerminal (t : Terminal).

Definition NewITerminal (f : option File) : ITerminal :=
  match f with
  | None => nilTerminal
  | Some f => let '(d, isT) := GetFdInfo f in fileTerminal (mkTerminal (Some f) d isT None None)
  end.

Section IMethods.
Variable L : LowLevel.

Definition ICall (m : option Terminal -> log -> option error * option Terminal * log)
    (t : ITerminal) (lg : log) : option error * ITerminal * log :=
  match t with
  | nilTerminal => (None, nilTerminal, lg)
  | fileTerminal t0 =>
      let '(r, t', lg') := m (Some t0) lg in
      (r, match t' with Some t1 => fileTerminal t1 | None => fileTerminal t0 end, lg')
  end.

Definition IClose (t : ITerminal) (lg : log) : option error * log :=
  match t with nilTerminal => (None, lg) | fileTerminal t0 => Close L (Some t0) lg end.
Definition IIsTerminal (t : ITerminal) : bool :=
  match t with nilTerminal => false | fileTerminal t0 => isTerminal t0 end.
Definition ISetRawInput := ICall (SetRawInput L).
Definition IRestoreInput := ICall (RestoreInput L).
Definition ISetRawOutput := ICall (SetRawOutput L).
Definition IRestoreOutput := ICall (RestoreOutput L).
Definition IGetSize (t : ITerminal) : option WindowSize * option error :=
  match t with
  | nilTerminal => (None, Some ErrNotATerminal)
  | fileTerminal t0 => GetSize L (Some t0)
  end.
Definition IResizeTo (t : ITerminal) (size : WindowSize) (lg : log) : option error * log :=
  match t with
  | nilTerminal => (Some ErrNotATerminal, lg)
  | fileTerminal t0 => ResizeTo L (Some t0) size lg
  end.

End IMethods.

End Term.

(** ** StreamingProcess (term/lowlevel, winsize_set_windows.go) *)

Module Streaming.
Import Term.

(** The calls made to the outside: to the [Streamer] interface, and
    [ResizeTo] on the [ptyTerm] handle (with the handle it was made on). *)
Inductive outcall :=
  | SInit (Term : String.string) (isPty : bool)
  | SAttach (isPty : bool)
  | SStreamOutput
  | SStreamInput
  | SResizeTo (size : WindowSize)
  | SResult
  | SDetach
  | TResizeTo (h : option nat) (size : WindowSize).

(** The answers of the environment: [lowlevel.OpenPty], [os.Pipe] (by the first
    descriptor it would use), the [Streamer] methods, [ctx.Err()] once the context
    is done, and whether [runtime.GOOS] is neither darwin nor windows. *)
Record Env := mkEnv {
  openPty_err : option error;
  pipe_err : FileDescriptor -> option error;
  streamer_init : option error;
  streamer_attach : option error;
  streamer_resize : WindowSize -> option error;
  streamer_result : Z * option error;
  streamer_detach : option error;
  ctx_err : error;
  closes_stdin : bool;
}.

(** The [StreamingProcess] fields, with each [*term.Terminal] a reference into
    the heap of handles ([None] is nil), together with the heap, the low-level
    calls, the next free descriptor and the outgoing calls. [restoreRuns] counts
    the runs of the body of [restoreTerminals]. The [stdout], [stderr] and
    [stdin] file fields only feed [Stdout], [Stderr] and [Stdin], and are left
    out. *)
Record sworld := mkSworld {
  stdoutTerm : option nat;
  stderrTerm : option nat;
  stdinTerm : option nat;
  ptyTerm : option nat;
  restoreTerms : bool;
  exited : bool;
  chansMade : bool;
  heap : list Terminal;
  llog : log;
  nextFd : FileDescriptor;
  out : list outcall;
  restoreRuns : nat;
}.

Definition set_terms (w : sworld) (so se si pt : option nat) : sworld :=
  mkSworld so se si pt (restoreTerms w) (exited w) (chansMade w) (heap w) (llog w)
    (nextFd w) (out w) (restoreRuns w).
Definition set_sys (w : sworld) (h : list Terminal) (lg : log) (n : FileDescriptor) : sworld :=
  mkSworld (stdoutTerm w) (stderrTerm w) (stdinTerm w) (ptyTerm w) (restoreTerms w)
    (exited w) (chansMade w) h lg n (out w) (restoreRuns w).
Definition emit (w : sworld) (c : outcall) : sworld :=
  mkSworld (stdoutTerm w) (stderrTerm w) (stdinTerm w) (ptyTerm w) (restoreTerms w)
    (exited w) (chansMade w) (heap w) (llog w) (nextFd w) (out w ++ [c]) (restoreRuns w).
Definition set_flags (w : sworld) (rt ex ch : bool) (runs : nat) : sworld :=
  mkSworld (stdoutTerm w) (stderrTerm w) (stdinTerm w) (ptyTerm w) rt ex ch
    (heap w) (llog w) (nextFd w) (out w) runs.

(** A process with no handles yet; descriptors 0 to 2 are the standard ones. *)
Definition fresh : sworld :=
  mkSworld None None None None false false false [] [] 3 [] 0.

Fixpoint upd (h : list Terminal) (i : nat) (t : Terminal) : list Terminal :=
  match h, i with
  | [], _ => []
  | _ :: h', 0 => t :: h'
  | x :: h', S i' => x :: upd h' i' t
  end.

Section Process.
Variable E : Env.
Variable L : LowLevel.

(** [NewTerminal] storing the new handle in the heap. *)
Definition alloc (f : option File) (w : sworld) : option nat * sworld :=
  match NewTerminal f with
  | None => (None, w)
  | Some t => (Some (length (heap w)), set_sys w (heap w ++ [t]) (llog w) (nextFd w))
  end.

(** Calling a method of [*Terminal] through a reference. *)
Definition onTerm {R} (m : option Terminal -> log -> R * option Terminal * log)
    (r : option nat) (w : sworld) : R * sworld :=
  match r with
  | None => let '(res, _, lg') := m None (llog w) in (res, set_sys w (heap w) lg' (nextFd w))
  | Some i =>
      match nth_error (heap w) i with
      | None => let '(res, _, lg') := m None (llog w) in (res, set_sys w (heap w) lg' (nextFd w))
      | Some t =>
          let '(res, t', lg') := m (Some t) (llog w) in
          let h' := match t' with Some t1 => upd (heap w) i t1 | None => heap w end in
          (res, set_sys w h' lg' (nextFd w))
      end
  end.

Definition deref (r : option nat) (w : sworld) : option Terminal :=
  match r with None => None | Some i => nth_error (heap w) i end.

(** [os.Pipe]: a read end and a write end, neither a terminal. *)
Definition osPipe (w : sworld) : option (File * File) * option error * sworld :=
  match pipe_err E (nextFd w) with
  | Some e => (None, Some e, w)
  | None => let n := nextFd w in
            (Some (mkFile n false, mkFile (S n) false), None,
             set_sys w (heap w) (llog w) (S (S n)))
  end.

(** [NewWritePipe] and [NewReadPipe]: the terminal end as a reference. *)
Definition NewWritePipe (w : sworld) : option nat * option error * sworld :=
  match osPipe w with
  | (Some (_, wf), None, w1) => let '(t, w2) := alloc (Some wf) w1 in (t, None, w2)
  | (_, e, w1) => (None, e, w1)
  end.

Definition NewReadPipe (w : sworld) : option nat * option error * sworld :=
  match osPipe w with
  | (Some (rf, _), None, w1) => let '(t, w2) := alloc (Some rf) w1 in (t, None, w2)
  | (_, e, w1) => (None, e, w1)
  end.

(** [term.OpenTerminal]: [lowlevel.OpenPty] gives two terminal files, wrapped
    in the order [NewTerminal(tf), NewTerminal(pf)]. *)
Definition OpenTerminal (w : sworld) : option nat * option nat * option error * sworld :=
  match openPty_err E with
  | Some e => (None, None, Some e, w)
  | None =>
      let n := nextFd w in
      let w1 := set_sys w (heap w) (llog w) (S (S n)) in
      let '(a, w2) := alloc (Some (mkFile n true)) w1 in
      let '(b, w3) := alloc (Some (mkFile (S n) true)) w2 in
      (a, b, None, w3)
  end.

Definition initPlain (w : sworld) : option error * sworld :=
  let '(so, e1, w1) := NewWritePipe w in
  let w1 := set_terms w1 so (stderrTerm w1) (stdinTerm w1) (ptyTerm w1) in
  match e1 with Some e => (Some e, w1) | None =>
  let '(se, e2, w2) := NewWritePipe w1 in
  let w2 := set_terms w2 (stdoutTerm w2) se (stdinTerm w2) (ptyTerm w2) in
  match e2 with Some e => (Some e, w2) | None =>
  let '(si, e3, w3) := NewReadPipe w2 in
  let w3 := set_terms w3 (stdoutTerm w3) (stderrTerm w3) si (ptyTerm w3) in
  match e3 with Some e => (Some e, w3) | None => (None, w3) end end end.

(** [initTerm]: [pty, tty, err := term.OpenTerminal()]; the tty handle is both
    [stdoutTerm] and [stdinTerm]; [stderrTerm] stays nil. *)
Definition initTerm (w : sworld) : option error * sworld :=
  let '(pty, tty, err, w1) := OpenTerminal w in
  match err with
  | Some e => (Some e, w1)
  | None => (None, set_terms w1 tty (stderrTerm w1) tty pty)
  end.

Definition Init (isTerm : bool) (w : sworld) : option error * sworld :=
  if isTerm then initTerm w else initPlain w.

Definition setRawTerminals (w : sworld) : option error * sworld :=
  let '(e1, w1) := onTerm (SetRawInput L) (stdoutTerm w) w in
  match e1 with Some e => (Some e, w1) | None =>
  let '(e2, w2) := onTerm (SetRawInput L) (stderrTerm w1) w1 in
  match e2 with Some e => (Some e, w2) | None =>
  let '(e3, w3) := onTerm (SetRawOutput L) (stdoutTerm w2) w2 in
  match e3 with Some e => (Some e, w3) | None => (None, w3) end end end.

(** [restoreTerminals]: the body runs under [restoreTerms.Do]; the results of the
    restore calls are dropped. *)
Definition restoreTerminals (w : sworld) : sworld :=
  if restoreTerms w then w
  else
    let w0 := set_flags w true (exited w) (chansMade w) (S (restoreRuns w)) in
    let '(_, w1) := onTerm (RestoreInput L) (stdoutTerm w0) w0 in
    let '(_, w2) := onTerm (RestoreInput L) (stderrTerm w1) w1 in
    let '(_, w3) := onTerm (RestoreOutput L) (stdinTerm w2) w2 in
    match TFile (deref (stdinTerm w3) w3) with
    | Some f => if closes_stdin E
                then let r := ll_close L f in
                     set_sys w3 (heap w3) (llog w3 ++ [LClose f r]) (nextFd w3)
                else w3
    | None => w3
    end.

Definition execAndStream (isPty : bool) (w : sworld) : option error * sworld :=
  let '(e1, w1) := setRawTerminals w in
  match e1 with Some e => (Some e, w1) | None =>
  let w2 := emit w1 (SAttach isPty) in
  match streamer_attach E with Some e => (Some e, w2) | None =>
  let w3 := set_flags w2 (restoreTerms w2) (exited w2) true (restoreRuns w2) in
  (None, emit (emit w3 SStreamOutput) SStreamInput) end end.

(** [Start]: the resize goroutine is spawned when [isPty] (its run is
    [resizeLoop] below); [execAndStream] gets the constant [true]. The result is
    [ptyTerm.File()] or the error. The last component says whether the resize
    goroutine was spawned. *)
Definition Start (Term : String.string) (isPty : bool) (w : sworld)
  : option File * option error * bool * sworld :=
  let w1 := emit w (SInit Term isPty) in
  match streamer_init E with
  | Some e => (None, Some e, false, w1)
  | None =>
      let '(e, w2) := execAndStream true w1 in
      match e with
      | Some e => (None, Some e, isPty, w2)
      | None => (TFile (deref (ptyTerm w2) w2), None, isPty, w2)
      end
  end.

(** The resize goroutine, run over what the channel emits before it is closed;
    [None] is a nil channel. The results of both [ResizeTo] calls are dropped. *)
Fixpoint forward (sizes : list WindowSize) (w : sworld) : sworld :=
  match sizes with
  | [] => w
  | size :: rest =>
      let w1 := emit w (TResizeTo (ptyTerm w) size) in
      let '(_, w2) := onTerm (fun t lg => let '(r, lg') := ResizeTo L t size lg in (r, t, lg'))
                        (ptyTerm w1) w1 in
      let w3 := emit w2 (SResizeTo size) in
      forward rest w3
  end.

Definition resizeLoop (resizeChan : option (list WindowSize)) (w : sworld) : sworld :=
  match resizeChan with
  | None => w
  | Some sizes => forward sizes w
  end.

(** Which case of the [select] in [waitStreams] fires: the output stream ends
    (with its error), the input stream ends and then the output one, the input
    stream ends and then the context is done, or the context is done. *)
Inductive waitPath :=
  | OutputDone (e : option error)
  | InputThenOutput (e : option error)
  | InputThenCancel
  | Cancelled.

(** [waitStreams], with its deferred [restoreTerminals]. *)
Definition waitStreams (p : waitPath) (w : sworld) : option error * sworld :=
  let r := match p with
           | OutputDone e | InputThenOutput e => e
           | InputThenCancel | Cancelled => Some (ctx_err E)
           end in
  (r, restoreTerminals w).

Definition Wait (p : waitPath) (w : sworld) : Z * option error * sworld :=
  let '(e, w1) := waitStreams p w in
  match e with
  | Some e => (0%Z, Some e, w1)
  | None =>
      let w2 := emit w1 SResult in
      let '(code, err) := streamer_result E in
      match err with
      | Some _ => (code, err, set_flags w2 (restoreTerms w2) true (chansMade w2) (restoreRuns w2))
      | None => (code, err, w2)
      end
  end.

(** The stream tasks calling their [restoreTerms] callback [k] times. *)
Fixpoint callbacks (k : nat) (w : sworld) : sworld :=
  match k with 0 => w | S k' => callbacks k' (restoreTerminals w) end.

End Process.

End Streaming.

Import String.StringSyntax.

(** ** ExecProcess (unnamed part 10): [Wait], [Stop] and [Cleanup] *)

Module ExecProc.
Local Open Scope string_scope.

(** The errors of [ExecProcess]: an error of [os] or [os/exec] passed on as it
    is, [errExecStopFailure], or an error wrapped by [errors.Wrap]. *)
Inductive execError :=
  | EErr (e : error)
  | errExecStopFailure                            (* "ExecProcess: Failed to kill process" *)
  | EWrapped (msg : String.string) (e : error).

(** The fields of [exec.Cmd] the methods use; [Process] says whether
    [cmd.Process] is non-nil (it is set by [cmd.Start()]). *)
Record Cmd := mkCmd {
  Path : String.string;
  Args : list String.string;
  Dir : String.string;
  Env : list String.string;
  Process : bool;
}.

(** [ExecProcess]; [cmd] is nil until [Init] succeeds. *)
Record ExecProcess := mkExecProcess {
  Command : String.string;
  PArgs : list String.string;
  Workdir : String.string;
  PEnv : list String.string;
  cmd : option Cmd;
}.

Definition set_Process (c : Cmd) (b : bool) : Cmd :=
  mkCmd (Path c) (Args c) (Dir c) (Env c) b.

(** How [cmd.Wait()] ends: with nil, with an [*exec.ExitError], or with
    another error. *)
Inductive waitResult := WaitNil | WaitExitError | WaitOther (e : error).

(** A method either returns (its results and the new process) or panics. *)
Inductive outcome (A : Type) := Returns (a : A) (sp : ExecProcess) | Panics.
Arguments Returns {A} a sp.
Arguments Panics {A}.

Section Methods.

(** The answers of the OS: [cmd.Wait()], [cmd.ProcessState.ExitCode()] and
    [cmd.Process.Kill()] on a live [os.Process]. *)
Variable cmdWait : waitResult.
Variable exitCode : Z.
Variable kill : option error.

(** [Wait]: [code] is 255 until the exit code is read. A nil [sp.cmd] panics. *)
Definition Wait (sp : ExecProcess) : outcome (Z * option execError) :=
  match cmd sp with
  | None => Panics
  | Some _ =>
      let code := 255%Z in
      match cmdWait with
      | WaitOther e => Returns (code, Some (EWrapped "cmd.Wait() returned non-exit-error" e)) sp
      | WaitNil | WaitExitError => Returns (exitCode, None) sp
      end
  end.

(** [Stop]: the body returns [sp.cmd.Process.Kill()], which panics on a nil
    [sp.cmd] or a nil [sp.cmd.Process]; the deferred function then runs with the
    named result [err]: when it is nil it calls [recover()] (ending a panic, if
    any) and sets [err = errExecStopFailure]. The boolean says whether a panic
    leaves [Stop]. *)
Definition Stop (sp : ExecProcess) : option execError * bool :=
  let '(err, panicking) :=
    match cmd sp with
    | Some c => if Process c then (option_map EErr kill, false) else (None, true)
    | None => (None, true)
    end in
  match err with
  | None => (Some errExecStopFailure, false)
  | Some e => (Some e, panicking)
  end.

(** [Cleanup]: [sp.cmd.Process = nil]; a nil [sp.cmd] panics. *)
Definition Cleanup (sp : ExecProcess) : outcome (option execError) :=
  match cmd sp with
  | None => Panics
  | Some c =>
      Returns None (mkExecProcess (Command sp) (PArgs sp) (Workdir sp) (PEnv sp)
                      (Some (set_Process c false)))
  end.

End Methods.

End ExecProc.

(** ** GetStdTerminal (term/os.go, and its earlier version in unnamed part 4) *)

Module StdTerm.
Import Term.

(** The [cleanup] function returned: nil, the empty [func() {}], or the closure
    restoring the input and output modes of [term] (in term/os.go it then calls
    [resizeCleanup()], which only stops the resize signals). *)
Inductive cleanupFn := CleanupNil | CleanupNoop | CleanupRestore.

(** The results other than [cleanup]: [term], [TERM], whether [resizeChan] is
    non-nil, and [err] (always nil in part 4). *)
Record stdResult := mkStdResult {
  sterm : option Terminal;
  sTERM : String.string;
  monitoring : bool;
  scleanup : cleanupFn;
  serr : option error;
}.

Section Std.
Variable L : LowLevel.

(** The error of [lowlevel.WindowResize(true)] (nil in the unix and windows
    versions) and the value of [os.Getenv("TERM")]. *)
Variable windowResize_err : option error.
Variable envTERM : String.string.

(** [monitorSize]: the size channel is made only when [WindowResize] succeeds;
    its goroutine only reads the window size. *)
Definition monitorSize (t : option Terminal) : bool * option error :=
  match windowResize_err with
  | Some e => (false, Some e)
  | None => (true, None)
  end.

(** term/os.go; [stdout] is [os.Stdout]. *)
Definition GetStdTerminal (stdout : File) (lg : log) : stdResult * log :=
  let term := NewTerminal (Some stdout) in
  if negb (IsTerminal term) then (mkStdResult None String.EmptyString false CleanupNoop None, lg)
  else
    let '(err, term, lg) := SetRawInput L term lg in
    match err with
    | Some e => (mkStdResult term String.EmptyString false CleanupNoop (Some e), lg)
    | None =>
    let '(err, term, lg) := SetRawOutput L term lg in
    match err with
    | Some e =>
        let '(_, term, lg) := RestoreInput L term lg in
        (mkStdResult term String.EmptyString false CleanupNoop (Some e), lg)
    | None =>
    let '(ch, err) := monitorSize term in
    match err with
    | Some e =>
        let '(_, term, lg) := RestoreInput L term lg in
        let '(_, term, lg) := RestoreOutput L term lg in
        (mkStdResult term String.EmptyString ch CleanupNoop (Some e), lg)
    | None => (mkStdResult term envTERM ch CleanupRestore None, lg)
    end end end.

(** Part 4: the errors of the raw-mode calls are dropped; [cleanup] is left
    nil when [os.Stdout] is not a terminal. *)
Definition GetStdTerminal_v0 (stdout : File) (lg : log) : stdResult * log :=
  let term := NewTerminal (Some stdout) in
  if negb (IsTerminal term) then (mkStdResult None String.EmptyString false CleanupNil None, lg)
  else
    let '(_, term, lg) := SetRawInput L term lg in
    let '(_, term, lg) := SetRawOutput L term lg in
    (mkStdResult term envTERM true CleanupRestore None, lg).

(** Calling [cleanup()] on the handle [term] points to; calling a nil [func]
    panics ([None]). *)
Definition runCleanup (c : cleanupFn) (t : option Terminal) (lg : log)
  : option (option Terminal * log) :=
  match c with
  | CleanupNil => None
  | CleanupNoop => Some (t, lg)
  | CleanupRestore =>
      let '(_, t, lg) := RestoreInput L t lg in
      let '(_, t, lg) := RestoreOutput L t lg in
      Some (t, lg)
  end.

End Std.

End StdTerm.

(** ** StreamingProcess.Cleanup (winsize_set_windows.go) *)

Module StreamingCleanup.
Import Term Streaming.

Section Cleanup.
Variable L : LowLevel.

(** [Cleanup]: when [ptyTerm] is non-nil it is closed, [Streamer.Detach] is
    called (both results are dropped) and [ptyTerm] is set to nil; the result is
    [exited]. *)
Definition Cleanup (w : sworld) : bool * sworld :=
  match ptyTerm w with
  | None => (exited w, w)
  | Some _ =>
      let '(_, w1) := onTerm (fun t lg => let '(r, lg') := Close L t lg in (r, t, lg'))
                        (ptyTerm w) w in
      let w2 := emit w1 SDetach in
      (exited w2, set_terms w2 (stdoutTerm w2) (stderrTerm w2) (stdinTerm w2) None)
  end.

(** [k] calls of [Cleanup] in a row, with their results. *)
Fixpoint cleanups (k : nat) (w : sworld) : list bool * sworld :=
  match k with
  | 0 => ([], w)
  | S k' =>
      let '(b, w1) := Cleanup w in
      let '(bs, w2) := cleanups k' w1 in
      (b :: bs, w2)
  end.

End Cleanup.

End StreamingCleanup.

(** ** DockerExecStreamer (stream_dockerexec.go) *)

Module DockerExec.
Import Term Streaming.
Local Open Scope string_scope.

(** The fields of [types.ExecConfig] that are set. *)
Record ExecConfig := mkExecConfig {
  AttachStdin : bool;
  AttachStderr : bool;
  AttachStdout : bool;
  Tty : bool;
  CEnv : list String.string;
  Cmd : list String.string;
}.

(** The calls made to the Docker API, and [des.conn.Close()]. *)
Inductive apicall :=
  | ContainerExecCreateCall (containerID : String.string) (config : ExecConfig)
  | ContainerExecAttachCall (execID : String.string) (tty : bool)
  | ContainerExecResizeCall (execID : String.string) (size : WindowSize)
  | ContainerExecInspectCall (execID : String.string)
  | ConnClose.

(** The answers of the Docker API ([client.APIClient]). *)
Record Client := mkClient {
  ContainerExecCreate : String.string -> ExecConfig -> option error * String.string;
  ContainerExecAttach : String.string -> bool -> option error;
  ContainerExecResize : String.string -> WindowSize -> option error;
  ContainerExecInspect : String.string -> Z * option error;
}.

(** [DockerExecStreamer]; [conn] says whether [des.conn] is non-nil, [api]
    lists the calls made. *)
Record DockerExecStreamer := mkDockerExecStreamer {
  containerID : String.string;
  config : ExecConfig;
  execID : String.string;
  conn : bool;
  api : list apicall;
}.

Definition log_api (d : DockerExecStreamer) (c : apicall) : DockerExecStreamer :=
  mkDockerExecStreamer (containerID d) (config d) (execID d) (conn d) (app (api d) [c]).

(** [NewDockerExecProcess]: the streamer, and the other fields of the
    [StreamingProcess] at their zero values. *)
Definition NewDockerExecProcess (cid : String.string) (command : list String.string)
  : DockerExecStreamer * sworld :=
  (mkDockerExecStreamer cid (mkExecConfig true true true false [] command) String.EmptyString false [], fresh).

Section Methods.
Variable C : Client.

Definition Init (Term : String.string) (isPty : bool) (d : DockerExecStreamer)
  : option error * DockerExecStreamer :=
  if isPty then
    let c := config d in
    (None, mkDockerExecStreamer (containerID d)
             (mkExecConfig (AttachStdin c) (AttachStderr c) (AttachStdout c) true
                (app (CEnv c) [String.append "TERM=" Term]) (Cmd c))
             (execID d) (conn d) (api d))
  else (None, d).

Definition Attach (isPty : bool) (d : DockerExecStreamer) : option error * DockerExecStreamer :=
  let d := log_api d (ContainerExecCreateCall (containerID d) (config d)) in
  match ContainerExecCreate C (containerID d) (config d) with
  | (Some e, _) => (Some e, d)
  | (None, id) =>
      let d := mkDockerExecStreamer (containerID d) (config d) id (conn d) (api d) in
      let d := log_api d (ContainerExecAttachCall id isPty) in
      match ContainerExecAttach C id isPty with
      | Some e => (Some e, d)
      | None => (None, mkDockerExecStreamer (containerID d) (config d) (execID d) true (api d))
      end
  end.

Definition ResizeTo (size : WindowSize) (d : DockerExecStreamer) : option error * DockerExecStreamer :=
  (ContainerExecResize C (execID d) size, log_api d (ContainerExecResizeCall (execID d) size)).

Definition Result (d : DockerExecStreamer) : Z * option error * DockerExecStreamer :=
  let '(code, err) := ContainerExecInspect C (execID d) in
  (code, err, log_api d (ContainerExecInspectCall (execID d))).

(** [Detach]: [des.conn.Close()] dereferences [des.conn]; [None] is the panic
    on a nil [des.conn]. *)
Definition Detach (d : DockerExecStreamer) : option (option error * DockerExecStreamer) :=
  if conn d then Some (None, log_api d ConnClose) else None.

(** The [Streamer] calls of a [StreamingProcess], in order, served by [d];
    [None] when one of them panics. The stream tasks only copy bytes, and
    [TResizeTo] is a call on the pty handle. *)
Fixpoint serve (cs : list outcall) (d : DockerExecStreamer) : option DockerExecStreamer :=
  match cs with
  | [] => Some d
  | c :: cs' =>
      match c with
      | SInit T p => serve cs' (snd (Init T p d))
      | SAttach p => serve cs' (snd (Attach p d))
      | SResizeTo size => serve cs' (snd (ResizeTo size d))
      | SResult => serve cs' (snd (Result d))
      | SDetach => match Detach d with Some (_, d') => serve cs' d' | None => None end
      | SStreamOutput | SStreamInput | TResizeTo _ _ => serve cs' d
      end
  end.

(** The answers [d] gives to [StreamingProcess.Start(Term, _, isPty)], which
    calls [Init(Term, isPty)] and then [Attach(true)]; the other answers are
    those of [base]. *)
Definition startEnv (base : Env) (Term : String.string) (isPty : bool) (d : DockerExecStreamer)
  : Env :=
  mkEnv (openPty_err base) (pipe_err base) (fst (Init Term isPty d))
    (fst (Attach true (snd (Init Term isPty d)))) (streamer_resize base)
    (streamer_result base) (streamer_detach base) (ctx_err base) (closes_stdin base).

End Methods.

End DockerExec.

(** * Proofs *)

Module DualCloserProofs.
Import DualCloser.

Definition b2z (b : bool) : Z := if b then 1%Z else 0%Z.

Lemma call_step (c : option error) (o : op) (w : DualCloserWrapper) :
  count w = (b2z (close w) + b2z (closeWrite w))%Z ->
  let '(_, invoked, w') := call c o w in
  let cd' := close w || op_eqb OpClose o in
  let cwd' := closeWrite w || op_eqb OpCloseWrite o in
  invoked = cd' && cwd' && negb (close w && closeWrite w) /\
  close w' = cd' /\ closeWrite w' = cwd' /\
  count w' = (b2z (close w') + b2z (closeWrite w'))%Z.
Proof.
  destruct w as [n cd cwd]; simpl; intros ->.
  destruct o, cd, cwd; vm_compute; repeat split.
Qed.

Lemma run_first_both (c : option error) (ops : list op) (w : DualCloserWrapper) :
  count w = (b2z (close w) + b2z (closeWrite w))%Z ->
  fst (run c ops w) = first_both_trace (close w) (closeWrite w) ops.
Proof.
  revert w; induction ops as [|o ops IH]; intros w Hw; [reflexivity|].
  simpl. pose proof (call_step c o w Hw) as Hs.
  destruct (call c o w) as [[e inv] w1].
  destruct Hs as (-> & Hc & Hcw & Hn).
  destruct (run c ops w1) as [tr w2] eqn:E. simpl.
  f_equal.
  replace tr with (fst (run c ops w1)) by (rewrite E; reflexivity).
  rewrite (IH w1 Hn), Hc, Hcw. reflexivity.
Qed.

Lemma both_from_cons (cd cwd : bool) (o : op) (ops : list op) :
  both_from cd cwd (o :: ops) =
  both_from (cd || op_eqb OpClose o) (cwd || op_eqb OpCloseWrite o) ops.
Proof. unfold both_from; simpl; rewrite !orb_assoc; reflexivity. Qed.

Lemma first_both_trace_nth (ops : list op) (cd cwd : bool) (i : nat) :
  nth i (first_both_trace cd cwd ops) false = true <->
  i < length ops /\ both_from cd cwd (firstn (S i) ops) = true /\
  both_from cd cwd (firstn i ops) = false.
Proof.
  revert cd cwd i; induction ops as [|o ops IH]; intros cd cwd i.
  - destruct i; simpl; split; [discriminate| lia | discriminate | lia].
  - destruct i as [|i].
    + simpl. unfold both_from; simpl.
      destruct o, cd, cwd; simpl; split; intuition (try lia; try discriminate).
    + simpl first_both_trace. rewrite (firstn_cons (S i)), (firstn_cons i).
      rewrite !both_from_cons. simpl nth. rewrite IH. simpl length.
      split; intros (H1 & H2 & H3); repeat split; auto; lia.
Qed.

Lemma first_both_trace_count (ops : list op) (cd cwd : bool) :
  count_occ bool_dec (first_both_trace cd cwd ops) true =
  if both_from cd cwd ops && negb (cd && cwd) then 1 else 0.
Proof.
  revert cd cwd; induction ops as [|o ops IH]; intros cd cwd.
  - unfold both_from; destruct cd, cwd; reflexivity.
  - simpl first_both_trace. rewrite both_from_cons.
    destruct o, cd, cwd; simpl count_occ; rewrite IH; unfold both_from; simpl;
      try reflexivity; destruct (existsb _ ops); reflexivity.
Qed.

(** C1: for every finite sequence of [Close()]/[CloseWrite()] calls on a fresh
    [DualCloserWrapper], the wrapped [Closer.Close()] is invoked exactly once when
    the sequence contains both operations and never otherwise, and the call that
    invokes it is exactly the first call after which both operations have occurred. *)
Theorem dual_closer_closes_once_at_first_both (c : option error) (ops : list op) :
  count_occ bool_dec (invoked_trace c ops) true = (if has_both ops then 1 else 0) /\
  (forall i, nth i (invoked_trace c ops) false = true <->
     i < length ops /\ has_both (firstn (S i) ops) = true /\
     has_both (firstn i ops) = false).
Proof.
  unfold invoked_trace. rewrite (run_first_both c ops zero eq_refl). simpl.
  split.
  - rewrite first_both_trace_count. unfold both_from, has_both; simpl.
    rewrite andb_true_r. reflexivity.
  - intros i. rewrite first_both_trace_nth. reflexivity.
Qed.

Example dual_closer_example :
  invoked_trace None [OpClose; OpClose; OpCloseWrite; OpClose; OpCloseWrite]
  = [false; false; true; false; false].
Proof. reflexivity. Qed.

End DualCloserProofs.

Module CommandProofs.
Import Command.

(** A process whose every call succeeds; [Wait] answers [(7 + k, nil)] on its
    [k]-th call, [Cleanup] answers [ErrExternal k]. *)
Definition okProcess : Process :=
  mkProcess None None None None None None (fun k => (Z.of_nat (7 + k), None))
    (fun k => Some (ErrExternal k)).

Example command_lifecycle_example :
  fst (run okProcess [EvInit false; EvStart; EvWait; EvWait; EvWaiter; EvWait;
                      EvCleanup; EvSpawnedCleanup; EvCleanup] fresh)
  = [OutInit None; OutStart None; OutWait 7 None; OutWait 7 None; OutWait 7 None;
     OutCleanup (Some (ErrExternal 0)); OutCleanup (Some (ErrExternal 0))].
Proof. reflexivity. Qed.

(** The world once the process has been waited for. *)
Definition doneWorld : world :=
  snd (run okProcess [EvInit false; EvStart; EvWait; EvWaiter] fresh).

(** C3: [Start] before [Init] (state [commandStateDefault]) answers
    [errCommandIsATerminal], while [StartPty] before [Init] answers
    [errCommandNotInitialized]; neither touches the process. *)
Theorem command_start_before_init_is_a_terminal (P : Process) :
  Start P fresh = (Some errCommandIsATerminal, fresh) /\
  StartPty P fresh = (Some errCommandNotInitialized, fresh).
Proof. split; reflexivity. Qed.

(** C4: [Stop] once the command is [commandStateDone] answers
    [errCommandNotRunning] (not nil): the state test rejects [Done] before the
    [Done] branch is reached. *)
Theorem command_stop_when_done_not_running (P : Process) (w : world) :
  state (cmd w) = commandStateDone -> Stop P w = (Some errCommandNotRunning, w).
Proof. unfold Stop; intros ->; reflexivity. Qed.

Lemma command_stop_when_done_not_running_witness :
  state (cmd doneWorld) = commandStateDone /\
  Stop okProcess doneWorld = (Some errCommandNotRunning, doneWorld).
Proof.
  split; [reflexivity|].
  apply command_stop_when_done_not_running; reflexivity.
Defined.

(** *** Waiting: the three phases after a successful start *)

Section Waiting.
Variable P : Process.

Definition cnt (p : pcall) (w : world) : nat := count_occ pcall_eq_dec (calls w) p.

Definition phaseA (w : world) : Prop :=
  state (cmd w) = commandStateStart /\ waiterRunning w = false /\
  blockedWaits w = 0 /\ cnt PWait w = 0.

Definition phaseB (w : world) : Prop :=
  state (cmd w) = commandStateWait /\ waiterRunning w = true /\
  waitChanClosed (cmd w) = false /\ cnt PWait w = 0.

Definition phaseC (w : world) : Prop :=
  state (cmd w) = commandStateDone /\ waiterRunning w = false /\
  blockedWaits w = 0 /\ waitChanClosed (cmd w) = true /\ cnt PWait w = 1 /\
  (waitExitCode (cmd w), waitErr (cmd w)) = proc_wait P 0.

Definition wait_out_ok (o : output) : Prop :=
  match o with OutWait c r => (c, r) = proc_wait P 0 | _ => True end.

Definition is_wait_out (o : output) : bool :=
  match o with OutWait _ _ => true | _ => false end.

Definition nwait (os : list output) : nat := length (filter is_wait_out os).

Definition ev_wait (ev : event) : nat := match ev with EvWait => 1 | _ => 0 end.

Lemma count_occ_snoc (l : list pcall) (p q : pcall) :
  count_occ pcall_eq_dec (l ++ [p]) q =
  count_occ pcall_eq_dec l q + (if pcall_eq_dec p q then 1 else 0).
Proof. rewrite count_occ_app; simpl; destruct (pcall_eq_dec p q); reflexivity. Qed.

Ltac open_world :=
  let c := fresh "c" in
  match goal with
  | |- context [step _ ?ev ?w] =>
      destruct w as [[? ? ? ? ? ? ?] c ? ? ?]
  end;
  unfold phaseA, phaseB, phaseC, cnt; simpl;
  intros; repeat match goal with H : _ /\ _ |- _ => destruct H end; subst.

Ltac fin := repeat (rewrite count_occ_snoc; simpl);
  repeat (constructor || assumption || reflexivity || lia).

Lemma step_phaseA (ev : event) (w : world) :
  phaseA w ->
  let '(o, w') := step P ev w in
  Forall wait_out_ok o /\ nwait o + blockedWaits w' = ev_wait ev + blockedWaits w /\
  (if ev_wait ev =? 1 then phaseB w' else phaseA w').
Proof.
  open_world.
  destruct ev; simpl; try (destruct cleanupsSpawned0); fin.
Qed.

Lemma nwait_repeat (c : Z) (r : option error) (n : nat) :
  nwait (repeat (OutWait c r) n) = n.
Proof. induction n as [|n IH]; [reflexivity|]. unfold nwait in *; simpl; rewrite IH; reflexivity. Qed.

Lemma Forall_repeat_ok (o : output) (n : nat) :
  wait_out_ok o -> Forall wait_out_ok (repeat o n).
Proof. intros H; induction n; simpl; constructor; auto. Qed.

Lemma step_phaseB (ev : event) (w : world) :
  phaseB w ->
  let '(o, w') := step P ev w in
  Forall wait_out_ok o /\ nwait o + blockedWaits w' = ev_wait ev + blockedWaits w /\
  (match ev with EvWaiter => phaseC w' | _ => phaseB w' end).
Proof.
  open_world.
  destruct ev; simpl; try (destruct cleanupsSpawned0; fin; fail); try (fin; fail).
  unfold waiter; simpl. rewrite H2.
  destruct (proc_wait P 0) as [code err] eqn:E; simpl.
  rewrite count_occ_snoc, H2; simpl.
  split; [apply Forall_repeat_ok; simpl; symmetry; exact E|].
  split; [rewrite nwait_repeat; lia|].
  repeat split; auto.
Qed.

Lemma step_phaseC (ev : event) (w : world) :
  phaseC w ->
  let '(o, w') := step P ev w in
  Forall wait_out_ok o /\ nwait o + blockedWaits w' = ev_wait ev + blockedWaits w /\
  phaseC w'.
Proof.
  open_world.
  destruct ev; simpl;
    try (destruct cleanupsSpawned0; simpl);
    try (destruct cleanupOnce0; simpl); fin.
Qed.

Definition inv (w : world) : Prop := phaseA w \/ phaseB w \/ phaseC w.

Lemma ev_wait_cases (ev : event) :
  (ev = EvWait /\ ev_wait ev = 1) \/ (ev <> EvWait /\ ev_wait ev = 0).
Proof.
  destruct ev; simpl; try (left; split; reflexivity); right; split; auto; discriminate.
Qed.

Lemma step_inv (ev : event) (w : world) :
  inv w ->
  let '(o, w') := step P ev w in
  Forall wait_out_ok o /\ nwait o + blockedWaits w' = ev_wait ev + blockedWaits w /\
  inv w' /\
  (phaseA w -> ev <> EvWait -> phaseA w') /\
  (phaseB w \/ phaseC w \/ ev = EvWait -> phaseB w' \/ phaseC w') /\
  (phaseB w \/ phaseC w -> ev = EvWaiter -> phaseC w').
Proof.
  assert (AB : phaseA w -> phaseB w -> False)
    by (intros [H1 _] [H2 _]; congruence).
  assert (AC : phaseA w -> phaseC w -> False)
    by (intros [H1 _] [H2 _]; congruence).
  intros [HA|[HB|HC]].
  - pose proof (step_phaseA ev w HA) as Hs.
    destruct (step P ev w) as [o w'].
    destruct Hs as (Ho & Hn & Hp).
    split; [exact Ho|]. split; [exact Hn|].
    destruct (ev_wait_cases ev) as [[-> _]|[Hne Hw]]; simpl in Hp.
    + split; [unfold inv; auto|]. split; [intros _ []; reflexivity|].
      split; [auto|]. intros [H|H]; exfalso; eauto.
    + rewrite Hw in Hp; simpl in Hp.
      split; [unfold inv; auto|]. split; [auto|].
      split; [intros [H|[H|H]]; [exfalso; eauto ..| contradiction]|].
      intros [H|H]; exfalso; eauto.
  - pose proof (step_phaseB ev w HB) as Hs.
    destruct (step P ev w) as [o w'].
    destruct Hs as (Ho & Hn & Hp).
    assert (Hw : phaseB w' \/ phaseC w') by (destruct ev; auto).
    split; [exact Ho|]. split; [exact Hn|].
    split; [unfold inv; auto|]. split; [intros H; exfalso; eauto|].
    split; [auto|]. intros _ ->; exact Hp.
  - pose proof (step_phaseC ev w HC) as Hs.
    destruct (step P ev w) as [o w'].
    destruct Hs as (Ho & Hn & Hp).
    split; [exact Ho|]. split; [exact Hn|].
    split; [unfold inv; auto|]. split; [intros H; exfalso; eauto|].
    split; [auto|]. intros _ _; exact Hp.
Qed.

Lemma nwait_app (o1 o2 : list output) : nwait (o1 ++ o2) = nwait o1 + nwait o2.
Proof. unfold nwait; rewrite filter_app, length_app; reflexivity. Qed.

Lemma run_inv (evs : list event) (w : world) :
  inv w ->
  let '(o, w') := run P evs w in
  Forall wait_out_ok o /\
  nwait o + blockedWaits w' = list_sum (map ev_wait evs) + blockedWaits w /\
  inv w' /\
  (phaseA w -> ~ In EvWait evs -> phaseA w') /\
  (phaseB w \/ phaseC w \/ In EvWait evs -> phaseB w' \/ phaseC w').
Proof.
  revert w; induction evs as [|ev evs IH]; intros w Hi.
  - simpl. split; [constructor|]. split; [reflexivity|]. split; [exact Hi|].
    split; [auto|]. intros [H|[H|[]]]; auto.
  - simpl. pose proof (step_inv ev w Hi) as Hs.
    destruct (step P ev w) as [o1 w1].
    destruct Hs as (Ho1 & Hn1 & Hi1 & HA1 & HBC1 & _).
    pose proof (IH w1 Hi1) as Hr.
    destruct (run P evs w1) as [o2 w2].
    destruct Hr as (Ho2 & Hn2 & Hi2 & HA2 & HBC2).
    split; [apply Forall_app; auto|].
    split; [rewrite nwait_app; lia|].
    split; [exact Hi2|].
    split.
    + intros HA Hnin. apply HA2; [apply HA1; auto|]. intros Hin; apply Hnin; right; exact Hin.
    + intros H. destruct (in_dec event_eq_dec EvWait evs) as [Hin|Hnin].
      * apply HBC2; auto.
      * assert (X : phaseB w1 \/ phaseC w1)
          by (apply HBC1; destruct H as [H|[H|[H|H]]]; auto; contradiction).
        apply HBC2. destruct X; auto.
Qed.

Lemma run_app (a b : list event) (w : world) :
  run P (a ++ b) w =
  let '(o1, w1) := run P a w in let '(o2, w2) := run P b w1 in (o1 ++ o2, w2).
Proof.
  revert w; induction a as [|ev a IH]; intros w; simpl.
  - destruct (run P b w); reflexivity.
  - destruct (step P ev w) as [o1 w1]. rewrite IH.
    destruct (run P a w1) as [o2 w2]. destruct (run P b w2) as [o3 w3].
    rewrite app_assoc; reflexivity.
Qed.

Lemma run_one (ev : event) (w : world) :
  run P [ev] w = (fst (step P ev w) ++ [], snd (step P ev w)).
Proof. simpl; destruct (step P ev w); reflexivity. Qed.

Lemma started_phaseA (isTty : bool) (w1 w2 : world) :
  Init P isTty fresh = (None, w1) ->
  Start P w1 = (None, w2) \/ StartPty P w1 = (None, w2) ->
  phaseA w2.
Proof.
  unfold Init; simpl. destruct (proc_init P); intros H1; inversion H1; subst; clear H1.
  unfold Start, StartPty; simpl.
  intros [H|H]; destruct isTty, (proc_stdin P), (proc_stdout P), (proc_stderr P),
    (proc_start P); simpl in H; try discriminate;
    inversion H; subst; unfold phaseA, cnt; simpl; repeat split.
Qed.

End Waiting.

(** C2: once a command has been initialized and successfully started, for any
    interleaving [evs] of calls ([Wait], [Stop], [Cleanup], ...) and goroutine
    steps, followed by the waiter goroutine getting to run, the process's [Wait]
    is invoked exactly once when some caller called [Wait] (and never otherwise),
    every [Wait] caller returns, and each returns the pair [(code, err)] produced
    by that single invocation of the process's [Wait]. *)
Theorem command_wait_calls_process_wait_once (P : Process) (isTty : bool)
    (w1 w2 : world) (evs : list event) :
  Init P isTty fresh = (None, w1) ->
  Start P w1 = (None, w2) \/ StartPty P w1 = (None, w2) ->
  let '(o, w') := run P (evs ++ [EvWaiter]) w2 in
  count_occ pcall_eq_dec (calls w') PWait = (if in_dec event_eq_dec EvWait evs then 1 else 0) /\
  length (filter is_wait_out o) = count_occ event_eq_dec evs EvWait /\
  Forall (fun out => match out with
                     | OutWait code r => (code, r) = proc_wait P 0
                     | _ => True
                     end) o.
Proof.
  intros H1 H2.
  pose proof (started_phaseA P isTty w1 w2 H1 H2) as HA.
  assert (Hcount : list_sum (map ev_wait evs) = count_occ event_eq_dec evs EvWait).
  { clear. induction evs as [|ev evs IH]; [reflexivity|].
    simpl. rewrite IH. destruct ev; simpl; reflexivity. }
  rewrite run_app.
  pose proof (run_inv P evs w2 (or_introl HA)) as Hr.
  destruct (run P evs w2) as [o1 w3].
  destruct Hr as (Ho1 & Hn1 & Hi3 & HA3 & HBC3).
  pose proof (step_inv P EvWaiter w3 Hi3) as Hs.
  rewrite run_one.
  destruct (step P EvWaiter w3) as [o2 w4]. cbn [fst snd]. rewrite app_nil_r.
  destruct Hs as (Ho2 & Hn2 & Hi4 & HA4 & HBC4 & HC4).
  simpl in Hn2.
  pose proof HA as (_ & _ & Hb2 & _).
  destruct (in_dec event_eq_dec EvWait evs) as [Hin|Hnin].
  - assert (HC : phaseC P w4) by (apply HC4; [apply HBC3; auto | reflexivity]).
    unfold phaseC in HC. destruct HC as (_ & _ & Hb4 & _ & Hc4 & _).
    split; [exact Hc4|]. split.
    + fold (nwait (o1 ++ o2)). rewrite nwait_app. lia.
    + apply Forall_app; split; [exact Ho1| exact Ho2].
  - assert (HA3' : phaseA w3) by (apply HA3; [exact HA | exact Hnin]).
    assert (HA4' : phaseA w4) by (apply HA4; [exact HA3' | discriminate]).
    unfold phaseA in HA3', HA4'. destruct HA3' as (_ & _ & Hb3 & _).
    destruct HA4' as (_ & _ & Hb4 & Hc4).
    split; [exact Hc4|]. split.
    + fold (nwait (o1 ++ o2)). rewrite nwait_app. lia.
    + apply Forall_app; split; [exact Ho1| exact Ho2].
Qed.

Definition initWorld : world := snd (Init okProcess false fresh).
Definition startedWorld : world := snd (Start okProcess initWorld).

Lemma command_wait_calls_process_wait_once_witness :
  (Init okProcess false fresh = (None, initWorld) /\
   (Start okProcess initWorld = (None, startedWorld) \/
    StartPty okProcess initWorld = (None, startedWorld))) /\
  let '(o, w') := run okProcess ([EvWait; EvStop; EvWait] ++ [EvWaiter]) startedWorld in
  count_occ pcall_eq_dec (calls w') PWait =
    (if in_dec event_eq_dec EvWait [EvWait; EvStop; EvWait] then 1 else 0) /\
  length (filter is_wait_out o) = count_occ event_eq_dec [EvWait; EvStop; EvWait] EvWait /\
  Forall (fun out => match out with
                     | OutWait code r => (code, r) = proc_wait okProcess 0
                     | _ => True
                     end) o.
Proof.
  split; [split; [reflexivity | left; reflexivity]|].
  apply (command_wait_calls_process_wait_once okProcess false initWorld startedWorld);
    [reflexivity | left; reflexivity].
Defined.

(** *** Cleanup *)

Section Cleaning.
Variable P : Process.

Definition cleanup_ok (o : output) : Prop :=
  match o with OutCleanup r => r = proc_cleanup P 0 | _ => True end.

Definition cinv (w : world) : Prop :=
  state (cmd w) = commandStateDone /\
  ((cleanupOnce (cmd w) = false /\ cnt PCleanup w = 0) \/
   (cleanupOnce (cmd w) = true /\ cnt PCleanup w = 1 /\ cleanupErr (cmd w) = proc_cleanup P 0)).

Lemma Forall_cleanup_ok_waits (z : Z) (r : option error) (n : nat) :
  Forall cleanup_ok (repeat (OutWait z r) n).
Proof. induction n; simpl; constructor; simpl; auto. Qed.

Ltac rw_cleanup :=
  repeat match goal with
  | H : count_occ pcall_eq_dec _ PCleanup = _ |- context [count_occ pcall_eq_dec _ PCleanup] =>
      rewrite H
  | H : ?e = proc_cleanup _ 0 |- context [?e] => is_var e; rewrite H
  end.

Ltac cfin :=
  rw_cleanup; simpl;
  split; [ try apply Forall_cleanup_ok_waits; repeat constructor; simpl;
           rw_cleanup; try reflexivity | ];
  split; [ split; [reflexivity |
                   first [ left; split; [reflexivity | lia]
                         | right; split; [reflexivity | split; [lia | auto]] ] ]
         | intros [?|?]; first [reflexivity | discriminate] ].

Lemma step_cinv (ev : event) (w : world) :
  cinv w ->
  let '(o, w') := step P ev w in
  Forall cleanup_ok o /\ cinv w' /\
  (ev = EvCleanup \/ cleanupOnce (cmd w) = true -> cleanupOnce (cmd w') = true).
Proof.
  destruct w as [[s pty closed code err co cerr] c wr bl cs].
  unfold cinv, cnt; simpl. intros [-> Hc].
  destruct Hc as [[Hco Hcn]|(Hco & Hcn & Hce)]; subst co;
  destruct ev; unfold Wait, wait; simpl;
    try (destruct wr; [unfold waiter; destruct (proc_wait P _); simpl|]);
    try (destruct cs; simpl);
    try (destruct closed; simpl);
    repeat (rewrite count_occ_snoc; simpl);
    cfin.
Qed.

Lemma run_cinv (evs : list event) (w : world) :
  cinv w ->
  let '(o, w') := run P evs w in
  Forall cleanup_ok o /\ cinv w' /\
  (In EvCleanup evs \/ cleanupOnce (cmd w) = true -> cleanupOnce (cmd w') = true).
Proof.
  revert w; induction evs as [|ev evs IH]; intros w Hi; simpl.
  - split; [constructor|]. split; [exact Hi|]. intros [[]|H]; exact H.
  - pose proof (step_cinv ev w Hi) as Hs.
    destruct (step P ev w) as [o1 w1].
    destruct Hs as (Ho1 & Hi1 & Hm1).
    pose proof (IH w1 Hi1) as Hr.
    destruct (run P evs w1) as [o2 w2].
    destruct Hr as (Ho2 & Hi2 & Hm2).
    split; [apply Forall_app; auto|]. split; [exact Hi2|].
    intros [[Heq|Hin]|H]; apply Hm2; auto.
Qed.

End Cleaning.

(** C5: [Cleanup] before [commandStateDone] answers [errCommandRunning] and
    leaves everything (in particular the calls made to the process) unchanged;
    from the moment the command is [Done], for any interleaving of calls and
    goroutine steps (including the [go e.Cleanup()] spawned by the waiter), the
    process's [Cleanup] is invoked at most once, exactly once when [Cleanup] is
    called, and every [Cleanup] call returns the result of that invocation. *)
Theorem command_cleanup_running_then_once (P : Process) (w : world) (evs : list event) :
  (state (cmd w) <> commandStateDone -> Cleanup P w = (Some errCommandRunning, w)) /\
  (state (cmd w) = commandStateDone -> cleanupOnce (cmd w) = false ->
   count_occ pcall_eq_dec (calls w) PCleanup = 0 ->
   let '(o, w') := run P evs w in
   count_occ pcall_eq_dec (calls w') PCleanup <= 1 /\
   (In EvCleanup evs -> count_occ pcall_eq_dec (calls w') PCleanup = 1) /\
   Forall (fun out => match out with
                      | OutCleanup r => r = proc_cleanup P 0
                      | _ => True
                      end) o).
Proof.
  split.
  - intros Hs. unfold Cleanup, cleanup.
    destruct (state (cmd w)); try reflexivity. contradiction.
  - intros Hs Hco Hcn.
    assert (Hi : cinv P w) by (split; [exact Hs | left; split; assumption]).
    pose proof (run_cinv P evs w Hi) as Hr.
    destruct (run P evs w) as [o w'].
    destruct Hr as (Ho & (_ & Hi') & Hm).
    unfold cnt in Hi'.
    split; [destruct Hi' as [(_ & ->)|(_ & -> & _)]; lia|].
    split; [|exact Ho].
    intros Hin. destruct Hi' as [(Hf & _)|(_ & -> & _)]; [|reflexivity].
    rewrite Hm in Hf; [discriminate | left; exact Hin].
Qed.

Lemma command_cleanup_running_then_once_witness :
  (state (cmd fresh) <> commandStateDone /\
   Cleanup okProcess fresh = (Some errCommandRunning, fresh)) /\
  (state (cmd doneWorld) = commandStateDone /\ cleanupOnce (cmd doneWorld) = false /\
   count_occ pcall_eq_dec (calls doneWorld) PCleanup = 0 /\
   let '(o, w') := run okProcess [EvCleanup; EvSpawnedCleanup; EvCleanup] doneWorld in
   count_occ pcall_eq_dec (calls w') PCleanup <= 1 /\
   (In EvCleanup [EvCleanup; EvSpawnedCleanup; EvCleanup] ->
    count_occ pcall_eq_dec (calls w') PCleanup = 1) /\
   Forall (fun out => match out with
                      | OutCleanup r => r = proc_cleanup okProcess 0
                      | _ => True
                      end) o).
Proof.
  split.
  - split; [discriminate|].
    apply (proj1 (command_cleanup_running_then_once okProcess fresh [])). discriminate.
  - split; [reflexivity|]. split; [reflexivity|]. split; [reflexivity|].
    apply (proj2 (command_cleanup_running_then_once okProcess doneWorld
                    [EvCleanup; EvSpawnedCleanup; EvCleanup])); reflexivity.
Defined.

End CommandProofs.

Module TermProofs.
Import Term.

(** Whether raw mode of kind [k] is currently applied on descriptor [d], read off
    the low-level calls: the last successful reset, or successful raw-mode call
    that saved a state, of that kind decides (the Unix [SetRawTerminalOutput]
    saves nothing and changes no mode). *)
Definition rawKind_eqb (a b : rawKind) : bool :=
  match a, b with RawInput, RawInput | RawOutput, RawOutput => true | _, _ => false end.



Definition is_some {A} (o : option A) : bool := match o with Some _ => true | None => false end.



Inductive top := TSetRawInput | TRestoreInput | TSetRawOutput | TRestoreOutput.

Definition tcall (L : LowLevel) (o : top) : option Terminal -> log -> option error * option Terminal * log :=
  match o with
  | TSetRawInput => SetRawInput L
  | TRestoreInput => RestoreInput L
  | TSetRawOutput => SetRawOutput L
  | TRestoreOutput => RestoreOutput L
  end.


(** The low-level layer of an unsupported platform: every raw-mode call fails. *)
Definition unsupportedLL : LowLevel :=
  mkLowLevel (fun _ => Some (ErrExternal 1)) true (fun _ => Some (ErrExternal 1))
    (fun _ => Some (ErrExternal 1)) (fun _ => (Some (ErrExternal 1), mkWindowSize 0 0))
    (fun _ _ => Some (ErrExternal 1)) (fun _ => None).


(** Claim C9: NewTerminal on a nil descriptor, in part 5 (a nil [*Terminal]) and in
    term/term.go ([nilTerminal{}]), gives a handle that is not a terminal, whose
    GetSize and ResizeTo report ErrNotATerminal for every size, whose Close returns
    nil, and whose SetRaw*/Restore* methods return nil and change neither the
    handle nor the low-level calls made. *)
Theorem nil_terminal_is_inert (L : LowLevel) (size : WindowSize) (lg : log) :
  (IsTerminal (NewTerminal None) = false
   /\ GetSize L (NewTerminal None) = (None, Some ErrNotATerminal)
   /\ ResizeTo L (NewTerminal None) size lg = (Some ErrNotATerminal, lg)
   /\ Close L (NewTerminal None) lg = (None, lg)
   /\ SetRawInput L (NewTerminal None) lg = (None, NewTerminal None, lg)
   /\ RestoreInput L (NewTerminal None) lg = (None, NewTerminal None, lg)
   /\ SetRawOutput L (NewTerminal None) lg = (None, NewTerminal None, lg)
   /\ RestoreOutput L (NewTerminal None) lg = (None, NewTerminal None, lg))
  /\
  (IIsTerminal (NewITerminal None) = false
   /\ IGetSize L (NewITerminal None) = (None, Some ErrNotATerminal)
   /\ IResizeTo L (NewITerminal None) size lg = (Some ErrNotATerminal, lg)
   /\ IClose L (NewITerminal None) lg = (None, lg)
   /\ ISetRawInput L (NewITerminal None) lg = (None, NewITerminal None, lg)
   /\ IRestoreInput L (NewITerminal None) lg = (None, NewITerminal None, lg)
   /\ ISetRawOutput L (NewITerminal None) lg = (None, NewITerminal None, lg)
   /\ IRestoreOutput L (NewITerminal None) lg = (None, NewITerminal None, lg)).
Proof.
  split; repeat (split; [reflexivity|]); reflexivity.
Qed.







(** The low-level layer of a platform with terminal support, on which every call
    succeeds: with the Windows [SetRawTerminalOutput] ([supportedLL]) and with
    the Unix one ([unixLL]). *)
Definition supportedLL : LowLevel :=
  mkLowLevel (fun _ => None) true (fun _ => None) (fun _ => None)
    (fun _ => (None, mkWindowSize 24 80)) (fun _ _ => None) (fun _ => None).




End TermProofs.

Module StreamingProofs.
Import Term Streaming.

Definition ts_eqb (a b : TerminalState) : bool :=
  Nat.eqb (ts_fd a) (ts_fd b) && TermProofs.rawKind_eqb (ts_kind a) (ts_kind b)
  && Nat.eqb (ts_id a) (ts_id b).

(** The saved states of the raw-mode calls that succeeded. *)
Definition raw_set_states (lg : log) : list TerminalState :=
  flat_map (fun e => match e with
                     | LSetRawTerminal _ st None | LSetRawTerminalOutput _ (Some st) None => [st]
                     | _ => []
                     end) lg.

Definition reset_with (st : TerminalState) (lg : log) : bool :=
  existsb (fun e => match e with LResetTerminal _ st' _ => ts_eqb st st' | _ => false end) lg.

(** Every raw mode set has been reset with its saved state, and no handle holds
    a token any more. *)
Definition all_restored (w : sworld) : bool :=
  forallb (fun st => reset_with st (llog w)) (raw_set_states (llog w))
  && forallb (fun t => negb (TermProofs.is_some (inState t))
                       && negb (TermProofs.is_some (outState t))) (heap w).

Section Once.
Variable E : Env.
Variable L : LowLevel.

Lemma restore_done w : restoreTerms w = true -> restoreTerminals E L w = w.
Proof. intros H. unfold restoreTerminals. rewrite H. reflexivity. Qed.

Lemma onTerm_restoreTerms {R} (m : option Terminal -> log -> R * option Terminal * log) r w :
  restoreTerms (snd (onTerm m r w)) = restoreTerms w
  /\ restoreRuns (snd (onTerm m r w)) = restoreRuns w.
Proof.
  unfold onTerm. destruct r as [i|].
  - destruct (nth_error (heap w) i) as [t|].
    + destruct (m (Some t) (llog w)) as [[? ?] ?]. split; reflexivity.
    + destruct (m None (llog w)) as [[? ?] ?]. split; reflexivity.
  - destruct (m None (llog w)) as [[? ?] ?]. split; reflexivity.
Qed.

Lemma restore_sets_flag w :
  restoreTerms w = false ->
  restoreTerms (restoreTerminals E L w) = true
  /\ restoreRuns (restoreTerminals E L w) = S (restoreRuns w).
Proof.
  intros H. unfold restoreTerminals. rewrite H.
  set (w0 := set_flags w true (exited w) (chansMade w) (S (restoreRuns w))).
  pose proof (onTerm_restoreTerms (RestoreInput L) (stdoutTerm w0) w0) as H1.
  destruct (onTerm (RestoreInput L) (stdoutTerm w0) w0) as [r1 w1]; simpl in H1.
  pose proof (onTerm_restoreTerms (RestoreInput L) (stderrTerm w1) w1) as H2.
  destruct (onTerm (RestoreInput L) (stderrTerm w1) w1) as [r2 w2]; simpl in H2.
  pose proof (onTerm_restoreTerms (RestoreOutput L) (stdinTerm w2) w2) as H3.
  destruct (onTerm (RestoreOutput L) (stdinTerm w2) w2) as [r3 w3]; simpl in H3.
  destruct H1 as [H1 H1'], H2 as [H2 H2'], H3 as [H3 H3'].
  destruct (TFile (deref (stdinTerm w3) w3)); [destruct (closes_stdin E)|];
    simpl; split; congruence.
Qed.

Lemma restore_flag w : restoreTerms (restoreTerminals E L w) = true.
Proof.
  destruct (restoreTerms w) eqn:H.
  - rewrite restore_done; auto.
  - apply restore_sets_flag; auto.
Qed.

Lemma callbacks_done k w : restoreTerms w = true -> callbacks E L k w = w.
Proof.
  revert w; induction k as [|k IH]; intros w H; simpl; [reflexivity|].
  rewrite restore_done by auto. apply IH; auto.
Qed.

Lemma restore_after_callbacks k w :
  restoreTerminals E L (callbacks E L k w) = restoreTerminals E L w.
Proof.
  destruct k as [|k]; simpl; [reflexivity|].
  rewrite callbacks_done by apply restore_flag.
  apply restore_done, restore_flag.
Qed.

(** What [Wait] leaves of the handles, the low-level calls and the flags is what
    its deferred [restoreTerminals] leaves. *)
Lemma Wait_restores p w :
  heap (snd (Wait E L p w)) = heap (restoreTerminals E L w)
  /\ llog (snd (Wait E L p w)) = llog (restoreTerminals E L w)
  /\ restoreRuns (snd (Wait E L p w)) = restoreRuns (restoreTerminals E L w)
  /\ restoreTerms (snd (Wait E L p w)) = true.
Proof.
  pose proof (restore_flag w) as Hf.
  unfold Wait, waitStreams.
  destruct (match p with
            | OutputDone e | InputThenOutput e => e
            | _ => Some (ctx_err E) end); simpl; [repeat split; auto|].
  destruct (streamer_result E) as [code [e|]]; simpl; repeat split; auto.
Qed.

End Once.

(** Worlds whose handles are all non-terminals holding no token, as [initPlain]
    leaves them (a pipe is not a terminal), and as a failed [initTerm] does. *)
Definition inert (w : sworld) : bool :=
  forallb (fun t => negb (isTerminal t) && negb (TermProofs.is_some (inState t))
                    && negb (TermProofs.is_some (outState t))) (heap w).

Definition plain_shape (w : sworld) : Prop :=
  inert w = true /\ llog w = [] /\ restoreTerms w = false /\ restoreRuns w = 0.

(** The world [initTerm] leaves on success: the first file of the pair is
    [ptyTerm], the second one both [stdoutTerm] and [stdinTerm]. *)
Definition termWorld : sworld :=
  mkSworld (Some 1) None (Some 1) (Some 0) false false false
    [mkTerminal (Some (mkFile 3 true)) 3 true None None;
     mkTerminal (Some (mkFile 4 true)) 4 true None None] [] 5 [] 0.

Lemma init_shape E isTerm :
  plain_shape (snd (Init E isTerm fresh)) \/ snd (Init E isTerm fresh) = termWorld.
Proof.
  destruct isTerm; simpl.
  - unfold initTerm, OpenTerminal. destruct (openPty_err E); [left|right]; reflexivity || (repeat split).
  - left. unfold initPlain, NewWritePipe, NewReadPipe, osPipe; simpl.
    destruct (pipe_err E 3); simpl; [repeat split|].
    destruct (pipe_err E 5); simpl; [repeat split|].
    destruct (pipe_err E 7); simpl; repeat split.
Qed.

Lemma upd_same h i t : nth_error h i = Some t -> upd h i t = h.
Proof.
  revert i; induction h as [|x h IH]; intros [|i] H; simpl in *; try discriminate.
  - congruence.
  - rewrite IH; auto.
Qed.

Lemma set_sys_same w : set_sys w (heap w) (llog w) (nextFd w) = w.
Proof. destruct w; reflexivity. Qed.

Lemma onTerm_noop (m : option Terminal -> log -> option error * option Terminal * log) r w :
  (forall t lg, In t (heap w) -> m (Some t) lg = (None, Some t, lg)) ->
  (forall lg, m None lg = (None, None, lg)) ->
  onTerm m r w = (None, w).
Proof.
  intros Hs Hn. unfold onTerm. destruct r as [i|].
  - destruct (nth_error (heap w) i) as [t|] eqn:Hi.
    + rewrite Hs by (eapply nth_error_In; eauto). rewrite upd_same by auto.
      rewrite set_sys_same; reflexivity.
    + rewrite Hn, set_sys_same; reflexivity.
  - rewrite Hn, set_sys_same; reflexivity.
Qed.

Lemma inert_method L o w t lg :
  inert w = true -> In t (heap w) -> TermProofs.tcall L o (Some t) lg = (None, Some t, lg).
Proof.
  intros Hw Hin. unfold inert in Hw. rewrite forallb_forall in Hw.
  specialize (Hw t Hin). destruct t as [f d [] [] []]; simpl in Hw; try discriminate.
  destruct o; reflexivity.
Qed.

Lemma inert_noop L o r w :
  inert w = true -> onTerm (TermProofs.tcall L o) r w = (None, w).
Proof.
  intros Hw. apply (onTerm_noop (TermProofs.tcall L o) r w).
  - intros t lg Hin. apply (inert_method L o w); assumption.
  - intros lg. destruct o; reflexivity.
Qed.

Lemma start_inert E L Term isPty w :
  inert w = true ->
  let w2 := snd (Start E L Term isPty w) in
  heap w2 = heap w /\ llog w2 = llog w /\ restoreTerms w2 = restoreTerms w
  /\ restoreRuns w2 = restoreRuns w /\ stdinTerm w2 = stdinTerm w.
Proof.
  intros Hw. unfold Start, execAndStream, setRawTerminals.
  pose proof (inert_noop L TermProofs.TSetRawInput (stdoutTerm w) (emit w (SInit Term isPty)) Hw) as H1.
  pose proof (inert_noop L TermProofs.TSetRawInput (stderrTerm w) (emit w (SInit Term isPty)) Hw) as H2.
  pose proof (inert_noop L TermProofs.TSetRawOutput (stdoutTerm w) (emit w (SInit Term isPty)) Hw) as H3.
  simpl in H1, H2, H3.
  destruct (streamer_init E); [simpl; repeat split|].
  simpl. rewrite H1; simpl. rewrite H2; simpl. rewrite H3; simpl.
  destruct (streamer_attach E); simpl; repeat split.
Qed.

Lemma restore_inert E L w :
  inert w = true -> restoreTerms w = false ->
  heap (restoreTerminals E L w) = heap w
  /\ raw_set_states (llog (restoreTerminals E L w)) = raw_set_states (llog w).
Proof.
  intros Hw Hf. unfold restoreTerminals. rewrite Hf.
  set (w0 := set_flags w true (exited w) (chansMade w) (S (restoreRuns w))).
  assert (H0 : inert w0 = true) by exact Hw.
  pose proof (inert_noop L TermProofs.TRestoreInput (stdoutTerm w0) w0 H0) as H1.
  pose proof (inert_noop L TermProofs.TRestoreInput (stderrTerm w0) w0 H0) as H2.
  pose proof (inert_noop L TermProofs.TRestoreOutput (stdinTerm w0) w0 H0) as H3.
  cbn [TermProofs.tcall] in H1, H2, H3. rewrite H1, H2, H3.
  destruct (TFile (deref (stdinTerm w0) w0)); [destruct (closes_stdin E)|];
    simpl; split; try reflexivity.
  unfold raw_set_states. rewrite flat_map_app. simpl. apply app_nil_r.
Qed.

(** After [Init] and [Start], whatever the environment answers, one run of the
    body of [restoreTerminals] resets every raw mode that was set. *)
Lemma started_then_restored E L isTerm Term isPty :
  let w2 := snd (Start E L Term isPty (snd (Init E isTerm fresh))) in
  restoreTerms w2 = false /\ restoreRuns w2 = 0
  /\ all_restored (restoreTerminals E L w2) = true.
Proof.
  intros w2. subst w2.
  destruct (init_shape E isTerm) as [[Hi [Hl [Hf Hr]]] | ->].
  - destruct (start_inert E L Term isPty _ Hi) as [Hh2 [Hl2 [Hf2 [Hr2 _]]]].
    rewrite Hf2, Hr2. split; [exact Hf|split; [exact Hr|]].
    set (w2 := snd (Start E L Term isPty (snd (Init E isTerm fresh)))) in *.
    assert (Hi2 : inert w2 = true) by (unfold inert; rewrite Hh2; exact Hi).
    destruct (restore_inert E L w2 Hi2 (eq_trans Hf2 Hf)) as [Hh3 Hs3].
    unfold all_restored. rewrite Hs3, Hl2, Hl. simpl.
    unfold inert in Hi2. rewrite Hh3. rewrite forallb_forall in Hi2 |- *.
    intros t Hin. specialize (Hi2 t Hin) as Ht. apply andb_prop in Ht. destruct Ht as [Ht Ho].
    apply andb_prop in Ht. destruct Ht as [_ Hn]. rewrite Hn, Ho. reflexivity.
  - destruct E as [op pe si sa sr sres sd ce cs], L as [lsr lsv lso lre lgw lsw lcl].
    destruct si, sa, cs, lsv; vm_compute;
    repeat (match goal with |- context [match ?x with _ => _ end] =>
              lazymatch x with lsr _ => destruct x | lso _ => destruct x end end;
            vm_compute);
    (split; [reflexivity|split; reflexivity]).
Qed.

(** Claim C6: after [Init] (terminal or plain) and [Start], with any answers from
    the low-level layer and the [Streamer], any number [k1] of restore callbacks
    from the stream tasks, [Wait] along any of its exit paths (the output stream
    ending with or without an error, the input stream ending and then the output
    one or the context, or the context being done), and any number [k2] of later
    callbacks: when [Wait] returns, every raw mode (input or output) that a
    successful low-level call set has been reset with its saved state and no
    handle holds a token; the later callbacks change nothing; and the body of
    [restoreTerminals] has run exactly once over all these calls. *)
Theorem streaming_wait_restores_once (E : Env) (L : LowLevel) (isTerm : bool)
    (Term : String.string) (isPty : bool) (k1 : nat) (p : waitPath) (k2 : nat) :
  let w2 := snd (Start E L Term isPty (snd (Init E isTerm fresh))) in
  let w4 := snd (Wait E L p (callbacks E L k1 w2)) in
  let w5 := callbacks E L k2 w4 in
  restoreRuns w2 = 0 /\ all_restored w4 = true /\ w5 = w4 /\ restoreRuns w5 = 1.
Proof.
  intros w2 w4 w5.
  destruct (started_then_restored E L isTerm Term isPty) as [Hf [Hr Ha]]. fold w2 in Hf, Hr, Ha.
  destruct (Wait_restores E L p (callbacks E L k1 w2)) as [Hh [Hl [Hn Ht]]].
  rewrite restore_after_callbacks in Hh, Hl, Hn. fold w4 in Hh, Hl, Hn, Ht.
  assert (Hw5 : w5 = w4) by (apply callbacks_done; exact Ht).
  destruct (restore_sets_flag E L w2 Hf) as [_ Hs].
  split; [exact Hr|]. split; [|split; [exact Hw5|]].
  - unfold all_restored in *. rewrite Hh, Hl. exact Ha.
  - rewrite Hw5, Hn, Hs, Hr. reflexivity.
Qed.

Lemma onTerm_out {R} (m : option Terminal -> log -> R * option Terminal * log) r w :
  out (snd (onTerm m r w)) = out w.
Proof.
  unfold onTerm. destruct r as [i|]; [destruct (nth_error (heap w) i)|];
    [destruct (m (Some t) (llog w)) as [[? ?] ?] | destruct (m None (llog w)) as [[? ?] ?]
    | destruct (m None (llog w)) as [[? ?] ?]]; reflexivity.
Qed.

Lemma setRawTerminals_out L w : out (snd (setRawTerminals L w)) = out w.
Proof.
  unfold setRawTerminals.
  pose proof (onTerm_out (SetRawInput L) (stdoutTerm w) w) as H1.
  destruct (onTerm (SetRawInput L) (stdoutTerm w) w) as [[e1|] w1]; simpl in *; [exact H1|].
  pose proof (onTerm_out (SetRawInput L) (stderrTerm w1) w1) as H2.
  destruct (onTerm (SetRawInput L) (stderrTerm w1) w1) as [[e2|] w2]; simpl in *; [congruence|].
  pose proof (onTerm_out (SetRawOutput L) (stdoutTerm w2) w2) as H3.
  destruct (onTerm (SetRawOutput L) (stdoutTerm w2) w2) as [[e3|] w3]; simpl in *; congruence.
Qed.

(** Claim C10: the calls [Start] makes to the outside are [Init(Term, isPty)],
    then, when [Init] succeeded and the raw modes could be set, [Attach] with
    [true] whatever [isPty] is, and, when [Attach] succeeded, the two stream
    tasks. *)
Theorem start_attaches_in_pty_mode (E : Env) (L : LowLevel) (Term : String.string)
    (isPty : bool) (w : sworld) :
  out (snd (Start E L Term isPty w)) =
  out w ++ SInit Term isPty ::
    match streamer_init E with
    | Some _ => []
    | None =>
        match fst (setRawTerminals L (emit w (SInit Term isPty))) with
        | Some _ => []
        | None => SAttach true :: match streamer_attach E with
                                  | Some _ => []
                                  | None => [SStreamOutput; SStreamInput]
                                  end
        end
    end.
Proof.
  unfold Start, execAndStream. cbv zeta.
  destruct (streamer_init E); [reflexivity|].
  pose proof (setRawTerminals_out L (emit w (SInit Term isPty))) as Ho.
  destruct (setRawTerminals L (emit w (SInit Term isPty))) as [[e1|] w1]; simpl in Ho |- *.
  - rewrite Ho. reflexivity.
  - destruct (streamer_attach E); simpl; rewrite Ho, <- !app_assoc; reflexivity.
Qed.

(** The low-level call one [ResizeTo] on the [ptyTerm] handle makes. *)
Definition resize_effect (L : LowLevel) (w : sworld) (size : WindowSize) : log :=
  match deref (ptyTerm w) w with
  | Some t => if isTerminal t then [LSetWinsize (fd t) size (ll_setWinsize L (fd t) size)] else []
  | None => []
  end.

Definition fstep (L : LowLevel) (size : WindowSize) (w : sworld) : sworld :=
  let w1 := emit w (TResizeTo (ptyTerm w) size) in
  emit (snd (onTerm (fun t lg => let '(r, lg') := ResizeTo L t size lg in (r, t, lg'))
               (ptyTerm w1) w1)) (SResizeTo size).

Lemma forward_cons L size rest w : forward L (size :: rest) w = forward L rest (fstep L size w).
Proof.
  unfold fstep; simpl.
  destruct (onTerm _ _ _); reflexivity.
Qed.

Lemma forward_step L size w :
  let w3 := fstep L size w in
  ptyTerm w3 = ptyTerm w /\ heap w3 = heap w
  /\ out w3 = out w ++ [TResizeTo (ptyTerm w) size; SResizeTo size]
  /\ llog w3 = llog w ++ resize_effect L w size
  /\ restoreTerms w3 = restoreTerms w /\ exited w3 = exited w.
Proof.
  destruct w as [so se si [i|] rt ex ch h lg n o runs];
    unfold fstep, resize_effect, deref, onTerm; simpl.
  - destruct (nth_error h i) as [t|] eqn:Hi; simpl.
    + unfold ResizeTo, SetWinsize; simpl.
      destruct (isTerminal t); simpl; rewrite upd_same by exact Hi;
        repeat split; rewrite <- ?app_assoc, ?app_nil_r; reflexivity.
    + repeat split; rewrite <- ?app_assoc, ?app_nil_r; reflexivity.
  - repeat split; rewrite <- ?app_assoc, ?app_nil_r; reflexivity.
Qed.

Lemma forward_spec L sizes w :
  let w' := forward L sizes w in
  ptyTerm w' = ptyTerm w /\ heap w' = heap w
  /\ out w' = out w ++ flat_map (fun s => [TResizeTo (ptyTerm w) s; SResizeTo s]) sizes
  /\ llog w' = llog w ++ flat_map (resize_effect L w) sizes
  /\ restoreTerms w' = restoreTerms w /\ exited w' = exited w.
Proof.
  revert w; induction sizes as [|size sizes IH]; intros w.
  - simpl; rewrite !app_nil_r. repeat split.
  - rewrite forward_cons.
    destruct (forward_step L size w) as [Hp [Hh [Ho [Hl [Hf1 Hf2]]]]].
    set (w3 := fstep L size w) in *.
    assert (Hd : forall s, resize_effect L w3 s = resize_effect L w s)
      by (intros; unfold resize_effect, deref; rewrite Hp, Hh; reflexivity).
    destruct (IH w3) as [Hp' [Hh' [Ho' [Hl' [Hr' He']]]]].
    assert (Hm : flat_map (resize_effect L w3) sizes = flat_map (resize_effect L w) sizes)
      by (apply flat_map_ext; exact Hd).
    rewrite Hp in Ho'. rewrite Hm in Hl'.
    split; [congruence|split; [congruence|split; [|split; [|split; congruence]]]].
    + rewrite Ho', Ho, <- app_assoc. reflexivity.
    + rewrite Hl', Hl, <- app_assoc. reflexivity.
Qed.

Lemma start_spawns E L Term isPty w :
  streamer_init E = None -> snd (fst (Start E L Term isPty w)) = isPty.
Proof.
  intros Hi. unfold Start. cbv zeta. rewrite Hi.
  destruct (execAndStream E L true (emit w (SInit Term isPty))) as [[e|] w3]; reflexivity.
Qed.

(** Claim C8: when the [Streamer] initialises, [Start] in pty mode spawns the
    resize goroutine (also when streaming fails to start afterwards). Over the
    sizes the channel emits before it is closed, the goroutine makes, in order
    and for each size, one [ResizeTo] on the [ptyTerm] handle and one on the
    [Streamer], and nothing else: the handles, the flags and the [ptyTerm]
    reference are unchanged, and the only low-level calls are the window-size
    changes of a [ptyTerm] that is a terminal. On a nil channel it does
    nothing. *)
Theorem start_pty_forwards_resizes (E : Env) (L : LowLevel) (Term : String.string)
    (w : sworld) (sizes : list WindowSize) :
  streamer_init E = None ->
  let '(_, _, spawned, w2) := Start E L Term true w in
  spawned = true
  /\ out (resizeLoop L (Some sizes) w2)
     = out w2 ++ flat_map (fun s => [TResizeTo (ptyTerm w2) s; SResizeTo s]) sizes
  /\ llog (resizeLoop L (Some sizes) w2) = llog w2 ++ flat_map (resize_effect L w2) sizes
  /\ heap (resizeLoop L (Some sizes) w2) = heap w2
  /\ ptyTerm (resizeLoop L (Some sizes) w2) = ptyTerm w2
  /\ restoreTerms (resizeLoop L (Some sizes) w2) = restoreTerms w2
  /\ exited (resizeLoop L (Some sizes) w2) = exited w2
  /\ resizeLoop L None w2 = w2.
Proof.
  intros Hi.
  pose proof (start_spawns E L Term true w Hi) as Hs.
  destruct (Start E L Term true w) as [[[f r] b] w2]. simpl in Hs.
  destruct (forward_spec L sizes w2) as [Hp [Hh [Ho [Hl [Hr He]]]]].
  simpl. split; [exact Hs|].
  repeat split; assumption.
Qed.

(** An environment in which every call succeeds. *)
Definition okEnv : Env :=
  mkEnv None (fun _ => None) None None (fun _ => None) (0%Z, None) None ErrContext true.

Definition threeSizes : list WindowSize :=
  [mkWindowSize 24 80; mkWindowSize 40 120; mkWindowSize 50 160].

Lemma start_pty_forwards_resizes_witness :
  streamer_init okEnv = None
  /\ snd (Init okEnv true fresh) = termWorld
  /\ (let '(_, _, spawned, w2) := Start okEnv TermProofs.supportedLL String.EmptyString true termWorld in
      spawned = true
      /\ out (resizeLoop TermProofs.supportedLL (Some threeSizes) w2)
         = out w2 ++ flat_map (fun s => [TResizeTo (ptyTerm w2) s; SResizeTo s]) threeSizes
      /\ llog (resizeLoop TermProofs.supportedLL (Some threeSizes) w2)
         = llog w2 ++ flat_map (resize_effect TermProofs.supportedLL w2) threeSizes
      /\ heap (resizeLoop TermProofs.supportedLL (Some threeSizes) w2) = heap w2
      /\ ptyTerm (resizeLoop TermProofs.supportedLL (Some threeSizes) w2) = ptyTerm w2
      /\ restoreTerms (resizeLoop TermProofs.supportedLL (Some threeSizes) w2) = restoreTerms w2
      /\ exited (resizeLoop TermProofs.supportedLL (Some threeSizes) w2) = exited w2
      /\ resizeLoop TermProofs.supportedLL None w2 = w2).
Proof.
  split; [reflexivity|]. split; [reflexivity|].
  exact (start_pty_forwards_resizes okEnv TermProofs.supportedLL String.EmptyString termWorld
           threeSizes eq_refl).
Defined.

End StreamingProofs.

Module DualCloserErrorProofs.
Import DualCloser.

(** The counter of a [DualCloserWrapper] starting at zero counts the distinct
    operations called so far: it never exceeds 2, so the [uint32] addition never
    wraps around. *)
Theorem dual_closer_count_bounded (c : option error) (ops : list op) :
  count (snd (run c ops zero))
  = (DualCloserProofs.b2z (close (snd (run c ops zero)))
     + DualCloserProofs.b2z (closeWrite (snd (run c ops zero))))%Z
  /\ (0 <= count (snd (run c ops zero)) <= 2)%Z.
Proof.
  assert (Hinv : forall ops w,
    count w = (DualCloserProofs.b2z (close w) + DualCloserProofs.b2z (closeWrite w))%Z ->
    let w' := snd (run c ops w) in
    count w' = (DualCloserProofs.b2z (close w') + DualCloserProofs.b2z (closeWrite w'))%Z).
  { clear ops. induction ops as [|o ops IH]; intros w Hw; [exact Hw|].
    simpl. pose proof (DualCloserProofs.call_step c o w Hw) as Hs.
    destruct (call c o w) as [[e inv] w1]. destruct Hs as (_ & _ & _ & Hn).
    specialize (IH w1 Hn). destruct (run c ops w1) as [tr w2]. exact IH. }
  specialize (Hinv ops zero eq_refl). simpl in Hinv.
  split; [exact Hinv|]. rewrite Hinv.
  destruct (close _), (closeWrite _); simpl; lia.
Qed.

End DualCloserErrorProofs.

Module CommandExtraProofs.
Import Command.

Section Starting.
Variable P : Process.

(** The calls of [Process.Start] in a list of calls. *)
Definition nstarts (l : list pcall) : nat :=
  count_occ pcall_eq_dec l (PStart false) + count_occ pcall_eq_dec l (PStart true).

Definition early (s : commandState) : bool :=
  state_eqb s commandStateDefault || state_eqb s commandStateInit.

(** What one step may do: add calls to the process and change the state, where
    a call of [Process.Start] is made only from the Init state, leaving it. *)
Definition moves (w w' : world) : Prop :=
  exists l, calls w' = calls w ++ l /\
   ((nstarts l = 0 /\
     (early (state (cmd w')) = true ->
      state (cmd w') = state (cmd w)
      \/ (state (cmd w) = commandStateDefault /\ state (cmd w') = commandStateInit)))
    \/ (nstarts l = 1 /\ state (cmd w) = commandStateInit
        /\ early (state (cmd w')) = false)).

Lemma nstarts_app (a b : list pcall) : nstarts (a ++ b) = nstarts a + nstarts b.
Proof. unfold nstarts; rewrite !count_occ_app; lia. Qed.

Lemma moves_keep w w' l :
  calls w' = calls w ++ l -> nstarts l = 0 -> state (cmd w') = state (cmd w) -> moves w w'.
Proof. intros H1 H2 H3. exists l. split; [exact H1|]. left. split; [exact H2|]. auto. Qed.

Lemma moves_same w : moves w w.
Proof. apply (moves_keep w w []); [rewrite app_nil_r|..]; reflexivity. Qed.

Lemma moves_late w w' l :
  calls w' = calls w ++ l -> nstarts l <= 1 ->
  (nstarts l = 1 -> state (cmd w) = commandStateInit) ->
  early (state (cmd w')) = false -> moves w w'.
Proof.
  intros H1 H2 H3 H4. exists l. split; [exact H1|].
  destruct (nstarts l) as [|[|n]] eqn:E; [left|right|lia].
  - split; [reflexivity|]. rewrite H4. discriminate.
  - auto.
Qed.

Lemma moves_Init b w : moves w (snd (Init P b w)).
Proof.
  unfold Init. destruct (state (cmd w)) eqn:Hs; simpl; try apply moves_same.
  destruct (proc_init P); simpl.
  - apply (moves_keep _ _ [PInit b]); reflexivity.
  - exists [PInit b]. split; [reflexivity|]. left. split; [reflexivity|]. simpl. auto.
Qed.

Lemma moves_Start w : moves w (snd (Start P w)).
Proof.
  unfold Start. destruct (state (cmd w)) eqn:Hs; simpl; try apply moves_same.
  destruct (isPty (cmd w)); simpl; [apply moves_same|].
  destruct (proc_stdin P); simpl;
    [apply (moves_late _ _ [PStdin]); simpl; auto; lia|].
  destruct (proc_stdout P); simpl;
    [apply (moves_late _ _ [PStdin; PStdout]); simpl; rewrite <- ?app_assoc; auto; lia|].
  destruct (proc_stderr P); simpl;
    [apply (moves_late _ _ [PStdin; PStdout; PStderr]); simpl; rewrite <- ?app_assoc; auto; lia|].
  apply (moves_late _ _ [PStdin; PStdout; PStderr; PStart false]); simpl;
    rewrite <- ?app_assoc; auto.
Qed.

Lemma moves_StartPty w : moves w (snd (StartPty P w)).
Proof.
  unfold StartPty. destruct (state (cmd w)) eqn:Hs; simpl; try apply moves_same.
  destruct (isPty (cmd w)); simpl; [|apply moves_same].
  destruct (proc_start P); simpl; apply (moves_late _ _ [PStart true]); simpl; auto.
Qed.

Lemma moves_Wait w : moves w (snd (Wait w)).
Proof.
  unfold Wait, wait.
  destruct (state (cmd w)) eqn:Hs; simpl; rewrite ?Hs; simpl.
  all: try (destruct (waitChanClosed (cmd w)); simpl;
            [apply moves_same
            | apply (moves_keep _ _ []); simpl; rewrite ?app_nil_r; reflexivity]).
  all: try apply moves_same.
  apply (moves_late _ _ []); simpl; rewrite ?app_nil_r; try reflexivity; try lia.
  - unfold nstarts; simpl; lia.
  - unfold nstarts; simpl; intros H; discriminate H.
Qed.

Lemma moves_waiter w : moves w (snd (waiter P w)).
Proof.
  unfold waiter. destruct (proc_wait P _) as [code err]; simpl.
  apply (moves_late _ _ [PWait]); simpl; auto; discriminate.
Qed.

Lemma moves_Stop w : moves w (snd (Stop P w)).
Proof.
  unfold Stop. destruct (negb _); [apply moves_same|].
  destruct (state_eqb _ _); [apply moves_same|].
  apply (moves_keep _ _ [PStop]); reflexivity.
Qed.

Lemma moves_Cleanup w : moves w (snd (Cleanup P w)).
Proof.
  unfold Cleanup, cleanup. destruct (negb _); [apply moves_same|].
  destruct (cleanupOnce (cmd w)); [apply moves_same|].
  apply (moves_keep _ _ [PCleanup]); reflexivity.
Qed.

Lemma moves_step ev w : moves w (snd (step P ev w)).
Proof.
  destruct ev; simpl.
  - pose proof (moves_Init isTty w). destruct (Init P isTty w); exact H.
  - pose proof (moves_Start w). destruct (Start P w); exact H.
  - pose proof (moves_StartPty w). destruct (StartPty P w); exact H.
  - apply moves_Wait.
  - destruct (waiterRunning w); [apply moves_waiter|apply moves_same].
  - pose proof (moves_Stop w). destruct (Stop P w); exact H.
  - pose proof (moves_Cleanup w). destruct (Cleanup P w); exact H.
  - destruct (cleanupsSpawned w) as [|n]; [apply moves_same|].
    pose proof (moves_Cleanup (mkWorld (cmd w) (calls w) (waiterRunning w) (blockedWaits w) n)) as H.
    destruct (Cleanup P _) as [r w']. simpl in *. exact H.
Qed.

Definition sinv (w : world) : Prop :=
  nstarts (calls w) <= 1 /\ (early (state (cmd w)) = true -> nstarts (calls w) = 0).

Lemma moves_sinv w w' : moves w w' -> sinv w -> sinv w'.
Proof.
  intros [l [Hc Hm]] [H1 H2]. unfold sinv. rewrite Hc, nstarts_app.
  destruct Hm as [[Hl He] | [Hl [Hs He]]].
  - rewrite Hl. split; [lia|]. intros Hw. destruct (He Hw) as [Heq | [Hd _]].
    + rewrite <- Heq in H2. rewrite (H2 Hw). reflexivity.
    + rewrite Hd in H2. rewrite (H2 eq_refl). reflexivity.
  - rewrite Hs in H2. rewrite (H2 eq_refl), Hl, He. split; [lia|discriminate].
Qed.

Definition init_ok (o : output) : bool :=
  match o with OutInit None => true | _ => false end.

Definition dflt (w : world) : nat :=
  if state_eqb (state (cmd w)) commandStateDefault then 1 else 0.

Lemma moves_dflt w w' : moves w w' -> dflt w' <= dflt w.
Proof.
  intros [l [_ Hm]]. unfold dflt.
  destruct (state (cmd w')) eqn:Hs'; simpl; try lia.
  destruct Hm as [[_ He] | [_ [_ He]]].
  - destruct (He eq_refl) as [Heq | [_ Hi]]; [rewrite <- Heq; simpl; lia | discriminate].
  - discriminate.
Qed.

Lemma filter_init_waits (c : Z) (r : option error) (n : nat) :
  filter init_ok (repeat (OutWait c r) n) = [].
Proof. induction n; simpl; auto. Qed.

Lemma step_init ev w :
  length (filter init_ok (fst (step P ev w))) + dflt (snd (step P ev w)) <= dflt w.
Proof.
  pose proof (moves_dflt _ _ (moves_step ev w)) as Hd.
  destruct ev; simpl in *.
  - unfold Init in *. unfold dflt in *.
    destruct (state (cmd w)) eqn:Hs; simpl in *; try lia.
    destruct (proc_init P); simpl; [rewrite Hs; simpl; lia | lia].
  - destruct (Start P w); simpl in *; lia.
  - destruct (StartPty P w); simpl in *; lia.
  - unfold Wait in *. destruct (wait w) as [[e|] w']; simpl in *; [lia|].
    destruct (waitChanClosed (cmd w')); simpl in *; lia.
  - destruct (waiterRunning w); simpl in *; [|lia].
    unfold waiter in *. destruct (proc_wait P _); simpl in *.
    rewrite filter_init_waits; simpl; lia.
  - destruct (Stop P w); simpl in *; lia.
  - destruct (Cleanup P w); simpl in *; lia.
  - destruct (cleanupsSpawned w); simpl in *; [lia|].
    destruct (Cleanup P _); simpl in *; lia.
Qed.

Lemma run_init evs w :
  length (filter init_ok (fst (run P evs w))) + dflt (snd (run P evs w)) <= dflt w.
Proof.
  revert w; induction evs as [|ev evs IH]; intros w; simpl; [lia|].
  pose proof (step_init ev w) as H1.
  destruct (step P ev w) as [o1 w1]. specialize (IH w1).
  destruct (run P evs w1) as [o2 w2]. simpl in *.
  rewrite filter_app, length_app. lia.
Qed.

End Starting.

(** Whatever calls are made to a [Command] and in whatever order, its process's
    [Start] is invoked at most once: [Start] and [StartPty] together start the
    process no more than one time. *)
Theorem command_process_started_at_most_once (P : Process) (evs : list event) :
  count_occ pcall_eq_dec (calls (snd (run P evs fresh))) (PStart false)
  + count_occ pcall_eq_dec (calls (snd (run P evs fresh))) (PStart true) <= 1.
Proof.
  assert (H : forall evs w, sinv w -> sinv (snd (run P evs w))).
  { induction evs0 as [|ev evs0 IH]; intros w Hw; [exact Hw|]. simpl.
    pose proof (moves_sinv _ _ (moves_step P ev w) Hw) as H1.
    destruct (step P ev w) as [o1 w1]. specialize (IH w1 H1).
    destruct (run P evs0 w1) as [o2 w2]. exact IH. }
  assert (H0 : sinv fresh) by (unfold sinv, nstarts; simpl; split; [lia|reflexivity]).
  exact (proj1 (H evs fresh H0)).
Qed.

(** Whatever calls are made to a [Command] and in whatever order, at most one
    call of [Init] returns nil: once [Init] has succeeded every later [Init]
    fails. *)
Theorem command_init_succeeds_at_most_once (P : Process) (evs : list event) :
  length (filter (fun o => match o with OutInit None => true | _ => false end)
            (fst (run P evs fresh))) <= 1.
Proof.
  pose proof (run_init P evs fresh) as H. unfold dflt at 2 in H. simpl in H.
  unfold init_ok in H. lia.
Qed.

(** When [Start] fails while fetching a stream ([Process.Stdin], [Stdout] or
    [Stderr] returns an error), it returns that error and calls no
    [Process.Start], yet the [Command] is left in the Start state: a following
    [Stop] forwards to [Process.Stop], and a following [Wait] arms the waiter,
    which then calls [Process.Wait]. *)
Theorem command_failed_stream_fetch_leaves_started (P : Process) (w : world) (e : error) :
  state (cmd w) = commandStateInit ->
  isPty (cmd w) = false ->
  proc_stdin P = Some e
  \/ (proc_stdin P = None /\ proc_stdout P = Some e)
  \/ (proc_stdin P = None /\ proc_stdout P = None /\ proc_stderr P = Some e) ->
  let '(r, w1) := Start P w in
  r = Some e
  /\ state (cmd w1) = commandStateStart
  /\ (exists fetched, calls w1 = calls w ++ fetched
                      /\ Forall (fun c => c = PStdin \/ c = PStdout \/ c = PStderr) fetched)
  /\ Stop P w1 = (proc_stop P, log_call w1 PStop)
  /\ fst (Wait w1) = []
  /\ waiterRunning (snd (Wait w1)) = true
  /\ calls (snd (waiter P (snd (Wait w1)))) = calls w1 ++ [PWait].
Proof.
  intros Hs Hp Hf. unfold Start. rewrite Hs, Hp. simpl.
  destruct Hf as [H1 | [[H1 H2] | [H1 [H2 H3]]]]; rewrite H1; try rewrite H2; try rewrite H3;
    simpl; unfold waiter; simpl;
    (destruct (proc_wait P _); simpl;
     split; [reflexivity|]; split; [reflexivity|];
     split; [eexists; split; [rewrite <- ?app_assoc; reflexivity|]; repeat constructor; auto|];
     repeat split; reflexivity).
Qed.

(** A process whose [Stdin] fails. *)
Definition stdinFails : Process :=
  mkProcess None (Some (ErrExternal 5)) None None None None (fun _ => (0%Z, None)) (fun _ => None).

Lemma command_failed_stream_fetch_leaves_started_witness :
  state (cmd (snd (Init stdinFails false fresh))) = commandStateInit
  /\ isPty (cmd (snd (Init stdinFails false fresh))) = false
  /\ (let '(r, w1) := Start stdinFails (snd (Init stdinFails false fresh)) in
      r = Some (ErrExternal 5)
      /\ state (cmd w1) = commandStateStart
      /\ (exists fetched, calls w1 = calls (snd (Init stdinFails false fresh)) ++ fetched
                          /\ Forall (fun c => c = PStdin \/ c = PStdout \/ c = PStderr) fetched)
      /\ Stop stdinFails w1 = (proc_stop stdinFails, log_call w1 PStop)
      /\ fst (Wait w1) = []
      /\ waiterRunning (snd (Wait w1)) = true
      /\ calls (snd (waiter stdinFails (snd (Wait w1)))) = calls w1 ++ [PWait]).
Proof.
  split; [reflexivity|]. split; [reflexivity|].
  exact (command_failed_stream_fetch_leaves_started stdinFails
           (snd (Init stdinFails false fresh)) (ErrExternal 5)
           eq_refl eq_refl (or_introl eq_refl)).
Defined.

End CommandExtraProofs.

Module ExecProcProofs.
Import ExecProc.

(** [Stop] never returns nil and never lets a panic out: it returns the error
    of [Kill] when [Kill] fails on a started process, and [errExecStopFailure]
    in every other case, a successful [Kill] included, as well as before
    [Init], before [Start] and after [Cleanup]. *)
Theorem exec_stop_never_nil (kill : option error) (sp : ExecProcess) :
  snd (Stop kill sp) = false
  /\ fst (Stop kill sp)
     = Some (match cmd sp, kill with
             | Some c, Some e => if Process c then EErr e else errExecStopFailure
             | _, _ => errExecStopFailure
             end)
  /\ (forall sp', Cleanup sp = Returns None sp' -> Stop kill sp' = (Some errExecStopFailure, false)).
Proof.
  unfold Stop, Cleanup.
  destruct (cmd sp) as [c|]; [|repeat split; intros sp' H; discriminate H].
  split; [|split].
  - destruct (Process c), kill; reflexivity.
  - destruct (Process c), kill; reflexivity.
  - intros sp' H. injection H as <-. simpl. reflexivity.
Qed.

End ExecProcProofs.

Module StdTermProofs.
Import Term StdTerm.

Ltac eval_log :=
  simpl; unfold StreamingProofs.ts_eqb; simpl; rewrite ?Nat.eqb_refl, ?length_app; simpl;
  rewrite ?Nat.eqb_refl; simpl.

(** term/os.go: whatever the OS answers, [GetStdTerminal] followed by the
    [cleanup] it returns resets every raw mode it set (each with its saved
    state) and leaves the handle without a saved state. When it returns an
    error, the [cleanup] is the empty function: the modes were already reset.
    When [os.Stdout] is not a terminal it returns a nil handle, no error, and
    makes no low-level call. *)
Theorem std_terminal_cleanup_restores (L : LowLevel) (wr : option error)
    (envTERM : String.string) (stdout : File) (lg : log) :
  let '(r, lg1) := GetStdTerminal L wr envTERM stdout lg in
  (serr r <> None -> scleanup r = CleanupNoop)
  /\ (file_is_tty stdout = false -> sterm r = None /\ serr r = None /\ lg1 = lg)
  /\ exists t2 new,
       runCleanup L (scleanup r) (sterm r) lg1 = Some (t2, lg ++ new)
       /\ forallb (fun st => StreamingProofs.reset_with st new)
            (StreamingProofs.raw_set_states new) = true
       /\ (forall t, t2 = Some t -> inState t = None /\ outState t = None).
Proof.
  destruct stdout as [d [|]]; unfold GetStdTerminal; simpl.
  - unfold SetRawInput, SetRawTerminal; simpl.
    destruct (ll_setRaw L d) as [e1|]; simpl.
    + split; [intros; reflexivity|]. split; [discriminate|].
      exists (Some (mkTerminal (Some (mkFile d true)) d true None None)), [LSetRawTerminal d (mkTerminalState d RawInput (length lg)) (Some e1)].
      split; [reflexivity|]. split; [reflexivity|]. intros t Ht; injection Ht as <-; auto.
    + unfold SetRawOutput, SetRawTerminalOutput; simpl.
      destruct (ll_outputSaves L); [destruct (ll_setRawOutput L d) as [e2|]|]; simpl;
        unfold monitorSize; [|destruct wr as [e3|]..]; simpl.
      all: split; [first [intros; reflexivity | intros H; contradiction H; reflexivity]|].
      all: split; [discriminate|].
      all: eexists; eexists; split; [unfold ResetTerminal; simpl; rewrite <- ?app_assoc; reflexivity|].
      all: split; [eval_log; reflexivity|]. all: intros t Ht; injection Ht as <-; auto.
  - split; [intros H; contradiction H; reflexivity|]. split; [auto|].
    exists None, []. rewrite app_nil_r. split; [reflexivity|]. split; [reflexivity|]. discriminate.
Qed.

(** Unnamed part 4: when [os.Stdout] is not a terminal, [GetStdTerminal]
    returns a nil [cleanup], so calling it panics. On a terminal, the errors of
    the raw-mode calls are dropped, and [cleanup] resets every raw mode that was
    set (also when the other call failed) and leaves the handle without a saved
    state. *)
Theorem std_terminal_v0_cleanup (L : LowLevel) (envTERM : String.string) (stdout : File)
    (lg : log) :
  let '(r, lg1) := GetStdTerminal_v0 L envTERM stdout lg in
  (file_is_tty stdout = false -> runCleanup L (scleanup r) (sterm r) lg1 = None)
  /\ (file_is_tty stdout = true ->
      serr r = None
      /\ exists t2 new,
           runCleanup L (scleanup r) (sterm r) lg1 = Some (t2, lg ++ new)
           /\ forallb (fun st => StreamingProofs.reset_with st new)
                (StreamingProofs.raw_set_states new) = true
           /\ (forall t, t2 = Some t -> inState t = None /\ outState t = None)).
Proof.
  destruct stdout as [d [|]]; unfold GetStdTerminal_v0; simpl.
  - unfold SetRawInput, SetRawTerminal, SetRawOutput, SetRawTerminalOutput; simpl.
    destruct (ll_setRaw L d) as [e1|]; simpl; destruct (ll_outputSaves L);
      destruct (ll_setRawOutput L d) as [e2|]; simpl;
      (split; [discriminate|]); intros _; (split; [reflexivity|]);
      eexists; eexists;
      (split; [unfold ResetTerminal; simpl; rewrite <- ?app_assoc; reflexivity|]);
      (split; [eval_log; reflexivity|]); intros t Ht; injection Ht as <-; auto.
  - split; [reflexivity|discriminate].
Qed.

End StdTermProofs.

Module StreamingExtraProofs.
Import Term Streaming StreamingCleanup.

Lemma Cleanup_spec (L : LowLevel) (w : sworld) :
  let '(b, w1) := Cleanup L w in
  b = exited w /\ ptyTerm w1 = None /\ heap w1 = heap w /\ exited w1 = exited w
  /\ restoreTerms w1 = restoreTerms w /\ restoreRuns w1 = restoreRuns w
  /\ out w1 = out w ++ (if TermProofs.is_some (ptyTerm w) then [SDetach] else [])
  /\ llog w1 = snd (Close L (deref (ptyTerm w) w) (llog w)).
Proof.
  destruct w as [so se si [i|] rt ex ch h lg n o runs]; unfold Cleanup, onTerm, deref; simpl.
  - destruct (nth_error h i) as [t|] eqn:Hi; simpl.
    + unfold Close. destruct (file t) as [f|]; simpl;
        rewrite (StreamingProofs.upd_same h i t Hi); repeat split.
    + repeat split.
  - rewrite app_nil_r. repeat split.
Qed.

Lemma cleanups_none (L : LowLevel) (k : nat) (w : sworld) :
  ptyTerm w = None -> cleanups L k w = (repeat (exited w) k, w).
Proof.
  intros Hp. induction k as [|k IH]; simpl; [reflexivity|].
  unfold Cleanup at 1. rewrite Hp. rewrite IH. reflexivity.
Qed.

(** However many times [Cleanup] is called, the pty handle is closed and
    [Streamer.Detach] is called at most once (by the first call, and only when
    there is a pty handle), after which [ptyTerm] is nil; every call returns
    [exited]. *)
Theorem streaming_cleanup_detaches_once (L : LowLevel) (n : nat) (w : sworld) :
  let '(bs, w') := cleanups L (S n) w in
  bs = repeat (exited w) (S n)
  /\ out w' = out w ++ (if TermProofs.is_some (ptyTerm w) then [SDetach] else [])
  /\ llog w' = snd (Close L (deref (ptyTerm w) w) (llog w))
  /\ ptyTerm w' = None /\ heap w' = heap w.
Proof.
  simpl. pose proof (Cleanup_spec L w) as H.
  destruct (Cleanup L w) as [b w1].
  destruct H as (Hb & Hp & Hh & He & _ & _ & Ho & Hl).
  rewrite (cleanups_none L n w1 Hp). simpl.
  rewrite Hb, He. repeat split; assumption.
Qed.

(** The low-level calls that change a terminal mode or size. *)
Definition mode_call (e : llevent) : bool :=
  match e with
  | LSetRawTerminal _ _ _ | LSetRawTerminalOutput _ _ _ | LResetTerminal _ _ _
  | LSetWinsize _ _ _ => true
  | LClose _ _ => false
  end.

(** The calls that may follow [Start], in any order: a stream task calling its
    restore callback, the resize goroutine forwarding a size, [Wait] (along an
    exit path) and [Cleanup]. *)
Inductive sop := OpCallback | OpResize (size : WindowSize) | OpWait (p : waitPath) | OpCleanup.

Definition sstep (E : Env) (L : LowLevel) (w : sworld) (o : sop) : sworld :=
  match o with
  | OpCallback => restoreTerminals E L w
  | OpResize size => forward L [size] w
  | OpWait p => snd (Wait E L p w)
  | OpCleanup => snd (Cleanup L w)
  end.

Definition quiet (w : sworld) : Prop :=
  StreamingProofs.inert w = true /\ existsb mode_call (llog w) = false.

Lemma close_quiet L t lg : existsb mode_call (snd (Close L t lg)) = existsb mode_call lg.
Proof.
  destruct t as [t|]; simpl; [|reflexivity].
  destruct (file t); simpl; [|reflexivity].
  rewrite existsb_app; simpl; rewrite orb_false_r; reflexivity.
Qed.

Lemma restore_quiet E L w : quiet w -> quiet (restoreTerminals E L w).
Proof.
  intros [Hi Hm]. destruct (restoreTerms w) eqn:Hf.
  - rewrite StreamingProofs.restore_done by exact Hf. split; assumption.
  - destruct (StreamingProofs.restore_inert E L w Hi Hf) as [Hh _].
    split; [unfold StreamingProofs.inert; rewrite Hh; exact Hi|].
    unfold restoreTerminals. rewrite Hf.
    set (w0 := set_flags w true (exited w) (chansMade w) (S (restoreRuns w))).
    assert (H0 : StreamingProofs.inert w0 = true) by exact Hi.
    pose proof (StreamingProofs.inert_noop L TermProofs.TRestoreInput (stdoutTerm w0) w0 H0) as H1.
    pose proof (StreamingProofs.inert_noop L TermProofs.TRestoreInput (stderrTerm w0) w0 H0) as H2.
    pose proof (StreamingProofs.inert_noop L TermProofs.TRestoreOutput (stdinTerm w0) w0 H0) as H3.
    cbn [TermProofs.tcall] in H1, H2, H3. rewrite H1, H2, H3.
    destruct (TFile (deref (stdinTerm w0) w0)); [destruct (closes_stdin E)|]; simpl;
      [rewrite existsb_app; simpl; rewrite orb_false_r|..]; exact Hm.
Qed.

Lemma resize_quiet L w size : quiet w -> quiet (forward L [size] w).
Proof.
  intros [Hi Hm].
  destruct (StreamingProofs.forward_spec L [size] w) as [_ [Hh [_ [Hl _]]]].
  split; [unfold StreamingProofs.inert; rewrite Hh; exact Hi|].
  rewrite Hl, existsb_app, Hm. simpl. rewrite app_nil_r.
  unfold StreamingProofs.resize_effect, deref.
  destruct (ptyTerm w) as [i|]; [|reflexivity].
  destruct (nth_error (heap w) i) as [t|] eqn:Ht; [|reflexivity].
  unfold StreamingProofs.inert in Hi. rewrite forallb_forall in Hi.
  specialize (Hi t (nth_error_In _ _ Ht)).
  destruct (isTerminal t); [discriminate Hi|reflexivity].
Qed.

Lemma Wait_quiet E L p w : quiet w -> quiet (snd (Wait E L p w)).
Proof.
  intros Hq. destruct (restore_quiet E L w Hq) as [Hi Hm].
  destruct (StreamingProofs.Wait_restores E L p w) as [Hh [Hl _]].
  split; [unfold StreamingProofs.inert in *; rewrite Hh; exact Hi|rewrite Hl; exact Hm].
Qed.

Lemma Cleanup_quiet L w : quiet w -> quiet (snd (Cleanup L w)).
Proof.
  intros [Hi Hm]. pose proof (Cleanup_spec L w) as H.
  destruct (Cleanup L w) as [b w1]. destruct H as (_ & _ & Hh & _ & _ & _ & _ & Hl). simpl.
  split; [unfold StreamingProofs.inert in *; rewrite Hh; exact Hi|].
  rewrite Hl, close_quiet. exact Hm.
Qed.

Lemma sstep_quiet E L w o : quiet w -> quiet (sstep E L w o).
Proof.
  destruct o; simpl; [apply restore_quiet|apply resize_quiet|apply Wait_quiet|apply Cleanup_quiet].
Qed.

Lemma plain_quiet E : quiet (snd (Init E false fresh)).
Proof.
  unfold Init, initPlain, NewWritePipe, NewReadPipe, osPipe; simpl.
  destruct (pipe_err E 3); simpl; [split; reflexivity|].
  destruct (pipe_err E 5); simpl; [split; reflexivity|].
  destruct (pipe_err E 7); simpl; split; reflexivity.
Qed.

(** In plain mode ([Init] with [isTerm] false, successful or not) the handles
    are pipe ends, which are not terminals: [Start], and then any sequence of
    restore callbacks, forwarded resizes, [Wait] calls and [Cleanup] calls, make
    no low-level call that sets or resets a terminal mode or sets a window
    size. *)
Theorem streaming_plain_never_touches_modes (E : Env) (L : LowLevel) (Term : String.string)
    (isPty : bool) (ops : list sop) :
  existsb mode_call
    (llog (fold_left (sstep E L) ops (snd (Start E L Term isPty (snd (Init E false fresh))))))
  = false.
Proof.
  assert (Hrun : forall ops w, quiet w -> quiet (fold_left (sstep E L) ops w)).
  { induction ops0 as [|o ops0 IH]; intros w Hw; simpl; [exact Hw|].
    apply IH, sstep_quiet, Hw. }
  apply Hrun.
  destruct (plain_quiet E) as [Hi Hm].
  destruct (StreamingProofs.start_inert E L Term isPty _ Hi) as [Hh [Hl _]].
  split; [unfold StreamingProofs.inert in *; rewrite Hh; exact Hi|rewrite Hl; exact Hm].
Qed.

End StreamingExtraProofs.

Module DockerExecProofs.
Import Term Streaming DockerExec.
Local Open Scope string_scope.

Lemma serve_app C cs1 cs2 d :
  serve C (app cs1 cs2) d = match serve C cs1 d with Some d' => serve C cs2 d' | None => None end.
Proof.
  revert d; induction cs1 as [|c cs1 IH]; intros d; simpl; [reflexivity|].
  destruct c; try apply IH.
  destruct (Detach d) as [[_ d']|]; [apply IH|reflexivity].
Qed.

Lemma onTerm_ptyTerm {R} (m : option Terminal -> log -> R * option Terminal * log) r w :
  ptyTerm (snd (onTerm m r w)) = ptyTerm w.
Proof.
  unfold onTerm. destruct r as [i|]; [destruct (nth_error (heap w) i)|];
    [destruct (m (Some t) (llog w)) as [[? ?] ?] | destruct (m None (llog w)) as [[? ?] ?]
    | destruct (m None (llog w)) as [[? ?] ?]]; reflexivity.
Qed.

Lemma setRawTerminals_ptyTerm L w : ptyTerm (snd (setRawTerminals L w)) = ptyTerm w.
Proof.
  unfold setRawTerminals.
  pose proof (onTerm_ptyTerm (SetRawInput L) (stdoutTerm w) w) as H1.
  destruct (onTerm (SetRawInput L) (stdoutTerm w) w) as [[e1|] w1]; simpl in *; [exact H1|].
  pose proof (onTerm_ptyTerm (SetRawInput L) (stderrTerm w1) w1) as H2.
  destruct (onTerm (SetRawInput L) (stderrTerm w1) w1) as [[e2|] w2]; simpl in *; [congruence|].
  pose proof (onTerm_ptyTerm (SetRawOutput L) (stdoutTerm w2) w2) as H3.
  destruct (onTerm (SetRawOutput L) (stdoutTerm w2) w2) as [[e3|] w3]; simpl in *; congruence.
Qed.

(** How the error of [Start] goes with its outgoing calls. *)
Lemma start_out_err E L Term isPty w :
  let '(_, e, _, w2) := Start E L Term isPty w in
  ptyTerm w2 = ptyTerm w
  /\ ((e <> None /\ out w2 = app (out w) [SInit Term isPty])
      \/ (streamer_init E = None /\ e = streamer_attach E
          /\ out w2 = app (out w) (SInit Term isPty :: SAttach true ::
                                    match e with Some _ => [] | None => [SStreamOutput; SStreamInput] end))).
Proof.
  unfold Start, execAndStream. cbv zeta.
  destruct (streamer_init E) eqn:Hi.
  { simpl. split; [reflexivity|left; split; [discriminate|reflexivity]]. }
  pose proof (StreamingProofs.setRawTerminals_out L (emit w (SInit Term isPty))) as Ho.
  pose proof (setRawTerminals_ptyTerm L (emit w (SInit Term isPty))) as Hp.
  destruct (setRawTerminals L (emit w (SInit Term isPty))) as [[e1|] w1]; simpl in Ho, Hp |- *.
  - split; [exact Hp|left; split; [discriminate|exact Ho]].
  - destruct (streamer_attach E) eqn:Ha; simpl; (split; [exact Hp|right; split; [reflexivity|split; [reflexivity|]]]);
      rewrite Ho, <- !app_assoc; reflexivity.
Qed.

Lemma setRaw_inert L w : StreamingProofs.inert w = true -> fst (setRawTerminals L w) = None.
Proof.
  intros Hw. unfold setRawTerminals.
  pose proof (StreamingProofs.inert_noop L TermProofs.TSetRawInput (stdoutTerm w) w Hw) as H1.
  pose proof (StreamingProofs.inert_noop L TermProofs.TSetRawInput (stderrTerm w) w Hw) as H2.
  pose proof (StreamingProofs.inert_noop L TermProofs.TSetRawOutput (stdoutTerm w) w Hw) as H3.
  simpl in H1, H2, H3. rewrite H1; simpl. rewrite H2; simpl. rewrite H3. reflexivity.
Qed.

Lemma plain_init_out E : out (snd (Streaming.Init E false fresh)) = []
  /\ StreamingProofs.inert (snd (Streaming.Init E false fresh)) = true.
Proof.
  unfold Streaming.Init, initPlain, NewWritePipe, NewReadPipe, osPipe; simpl.
  destruct (pipe_err E 3); simpl; [split; reflexivity|].
  destruct (pipe_err E 5); simpl; [split; reflexivity|].
  destruct (pipe_err E 7); simpl; split; reflexivity.
Qed.

Lemma Attach_spec C p d :
  let '(e, d') := Attach C p d in
  containerID d' = containerID d /\ config d' = config d
  /\ e = match ContainerExecCreate C (containerID d) (config d) with
        | (Some e, _) => Some e
        | (None, id) => ContainerExecAttach C id p
        end
  /\ api d' = app (api d) (ContainerExecCreateCall (containerID d) (config d) ::
                 match ContainerExecCreate C (containerID d) (config d) with
                 | (Some _, _) => []
                 | (None, id) => [ContainerExecAttachCall id p]
                 end)
  /\ conn d' = orb (conn d) (match e with None => true | Some _ => false end).
Proof.
  unfold Attach; simpl. destruct (ContainerExecCreate C (containerID d) (config d)) as [[e|] id]; simpl.
  - rewrite orb_false_r. repeat split.
  - destruct (ContainerExecAttach C id p); simpl; rewrite ?orb_false_r, ?orb_true_r; repeat split.
    all: rewrite <- app_assoc; reflexivity.
Qed.

(** A [DockerExecProcess] started in plain mode ([Init] with [isTerm] false):
    the exec is created with [Tty] set to [isPty] and then attached with [Tty]
    set to [true] whatever [isPty] is (when its creation succeeded); the
    connection is held only when both calls succeed. With [isPty] false the exec
    is thus created without a tty but attached as one. *)
Theorem docker_start_attaches_with_tty (C : Client) (base : Env) (L : LowLevel)
    (Term : String.string) (isPty : bool) (cid : String.string) (command : list String.string) :
  let '(d0, w0) := NewDockerExecProcess cid command in
  let E := startEnv C base Term isPty d0 in
  let w2 := snd (Start E L Term isPty (snd (Streaming.Init E false w0))) in
  exists d, serve C (out w2) d0 = Some d
    /\ Tty (config d) = isPty
    /\ api d = ContainerExecCreateCall cid (config d) ::
                 match ContainerExecCreate C cid (config d) with
                 | (Some _, _) => []
                 | (None, id) => [ContainerExecAttachCall id true]
                 end
    /\ conn d = match ContainerExecCreate C cid (config d) with
                | (Some _, _) => false
                | (None, id) => match ContainerExecAttach C id true with None => true | Some _ => false end
                end.
Proof.
  unfold NewDockerExecProcess. cbv zeta.
  set (d0 := mkDockerExecStreamer cid (mkExecConfig true true true false [] command) String.EmptyString false []).
  set (E := startEnv C base Term isPty d0).
  destruct (plain_init_out E) as [Ho Hi].
  set (w1 := snd (Streaming.Init E false fresh)) in *.
  unfold Start, execAndStream.
  assert (Hsi : streamer_init E = None) by (destruct isPty; reflexivity).
  rewrite Hsi.
  assert (Hi' : StreamingProofs.inert (emit w1 (SInit Term isPty)) = true) by exact Hi.
  pose proof (setRaw_inert L _ Hi') as Hr.
  pose proof (StreamingProofs.setRawTerminals_out L (emit w1 (SInit Term isPty))) as Hro.
  destruct (setRawTerminals L (emit w1 (SInit Term isPty))) as [e1 w3]; simpl in Hr, Hro; subst e1.
  set (d1 := snd (DockerExec.Init Term isPty d0)).
  assert (Hcfg : Tty (config d1) = isPty /\ containerID d1 = cid /\ conn d1 = false /\ api d1 = [])
    by (destruct isPty; repeat split).
  destruct Hcfg as (Ht & Hc & Hn & Ha).
  assert (Hsa : streamer_attach E = fst (Attach C true d1)) by reflexivity.
  assert (Hserve : forall tl, serve C (app (out w3) (SAttach true :: tl)) d0
                              = serve C tl (snd (Attach C true d1))).
  { intros tl. rewrite Hro, Ho. simpl. reflexivity. }
  pose proof (Attach_spec C true d1) as Hs.
  rewrite Hsa. destruct (Attach C true d1) as [ea da]. simpl in Hserve.
  destruct Hs as (Hdc & Hdf & He & Hda & Hdn).
  rewrite Hc, Ha, Hn in *. simpl in Hda, Hdn.
  assert (Hgoal : exists d, serve C [] da = Some d /\ Tty (config d) = isPty
    /\ api d = ContainerExecCreateCall cid (config d) ::
                 match ContainerExecCreate C cid (config d) with
                 | (Some _, _) => []
                 | (None, id) => [ContainerExecAttachCall id true]
                 end
    /\ conn d = match ContainerExecCreate C cid (config d) with
                | (Some _, _) => false
                | (None, id) => match ContainerExecAttach C id true with None => true | Some _ => false end
                end).
  { exists da. rewrite Hdf, Hda, Hdn, He. split; [reflexivity|split; [exact Ht|split; [reflexivity|]]].
    destruct (ContainerExecCreate C cid (config d1)) as [[?|] id]; [reflexivity|].
    destruct (ContainerExecAttach C id true); reflexivity. }
  destruct ea; simpl; rewrite <- ?app_assoc; simpl;
    [rewrite (Hserve []) | rewrite (Hserve [SStreamOutput; SStreamInput])]; simpl; exact Hgoal.
Qed.

Lemma term_init E : openPty_err E = None -> snd (Streaming.Init E true fresh) = StreamingProofs.termWorld.
Proof. intros H. unfold Streaming.Init, initTerm, OpenTerminal. rewrite H. reflexivity. Qed.

(** A [DockerExecProcess] initialised in terminal mode: when [Start] fails
    (the raw modes could not be set, or [Attach] failed), a later [Cleanup]
    calls [Detach] on a streamer whose connection is nil, and
    [des.conn.Close()] panics; when [Start] succeeds, [Cleanup]'s [Detach]
    closes the connection as the last Docker call. *)
Theorem docker_cleanup_after_failed_term_start_panics (C : Client) (base : Env) (L : LowLevel)
    (Term : String.string) (isPty : bool) (cid : String.string) (command : list String.string) :
  openPty_err base = None ->
  let '(d0, w0) := NewDockerExecProcess cid command in
  let E := startEnv C base Term isPty d0 in
  let '(_, e, _, w2) := Start E L Term isPty (snd (Streaming.Init E true w0)) in
  let w3 := snd (StreamingCleanup.Cleanup L w2) in
  match e with
  | Some _ => serve C (out w3) d0 = None
  | None => exists d, serve C (out w3) d0 = Some d /\ conn d = true
                      /\ exists calls, api d = app calls [ConnClose]
  end.
Proof.
  intros Hp. unfold NewDockerExecProcess. cbv zeta.
  set (d0 := mkDockerExecStreamer cid (mkExecConfig true true true false [] command) String.EmptyString false []).
  set (E := startEnv C base Term isPty d0).
  rewrite (term_init E Hp).
  pose proof (start_out_err E L Term isPty StreamingProofs.termWorld) as Hs.
  destruct (Start E L Term isPty StreamingProofs.termWorld) as [[[f e] sp] w2].
  destruct Hs as [Hpt Hcases].
  pose proof (StreamingExtraProofs.Cleanup_spec L w2) as Hc.
  destruct (StreamingCleanup.Cleanup L w2) as [b w3]. simpl.
  destruct Hc as (_ & _ & _ & _ & _ & _ & Ho & _).
  rewrite Hpt in Ho. simpl in Ho. rewrite Ho, serve_app.
  set (d1 := snd (DockerExec.Init Term isPty d0)).
  assert (Hd1 : containerID d1 = cid /\ conn d1 = false /\ api d1 = [])
    by (destruct isPty; repeat split).
  destruct Hd1 as (Hc1 & Hn1 & Ha1).
  destruct Hcases as [[He Hout] | (Hsi & He & Hout)]; rewrite Hout.
  - destruct e as [e|]; [|congruence]. simpl. unfold Detach. fold d1. rewrite Hn1. reflexivity.
  - assert (Hsa : streamer_attach E = fst (Attach C true d1)) by reflexivity.
    pose proof (Attach_spec C true d1) as Hs.
    rewrite Hsa in He. destruct (Attach C true d1) as [ea da] eqn:Hatt. simpl in He. subst e.
    destruct Hs as (_ & _ & _ & Hda & Hdn). rewrite Hn1 in Hdn. simpl in Hdn.
    assert (Hsv : forall tl, serve C (SInit Term isPty :: SAttach true :: tl) d0 = serve C tl da).
    { intros tl. simpl. fold d1. rewrite Hatt. reflexivity. }
    destruct ea as [ea|]; cbn [out StreamingProofs.termWorld app]; rewrite Hsv; simpl; unfold Detach; rewrite Hdn; simpl.
    + reflexivity.
    + eexists; split; [reflexivity|]. split; [exact Hdn|]. eexists; reflexivity.
Qed.

(** An API client whose [ContainerExecCreate] fails. *)
Definition failingClient : Client :=
  mkClient (fun _ _ => (Some (ErrExternal 7), String.EmptyString)) (fun _ _ => None)
    (fun _ _ => None) (fun _ => (0%Z, None)).

Lemma docker_cleanup_after_failed_term_start_panics_witness :
  openPty_err StreamingProofs.okEnv = None /\
  serve failingClient
    (out (snd (StreamingCleanup.Cleanup TermProofs.unsupportedLL
      (snd (Start (startEnv failingClient StreamingProofs.okEnv "xterm" true
                     (fst (NewDockerExecProcess "c1" ["sh"])))
               TermProofs.unsupportedLL "xterm" true
               (snd (Streaming.Init (startEnv failingClient StreamingProofs.okEnv "xterm" true
                                       (fst (NewDockerExecProcess "c1" ["sh"]))) true fresh)))))))
    (fst (NewDockerExecProcess "c1" ["sh"])) = None.
Proof.
  split; [reflexivity|].
  pose proof (docker_cleanup_after_failed_term_start_panics failingClient StreamingProofs.okEnv
                TermProofs.unsupportedLL "xterm" true "c1" ["sh"] eq_refl) as H.
  vm_compute in H. vm_compute. exact H.
Defined.

End DockerExecProofs.
